(** * mock-types: the runtime of [MockApi] (src/index.ts)

    The executable part of the repository is the function [MockApi] and its
    helper [mkQParams].  Everything else in src/index.ts is type-level and
    leaves no trace at run time.  This development embeds the two functions
    together with the ECMAScript built-ins they call
    ([String.prototype.replaceAll], [String.prototype.replace],
    [encodeURIComponent], [Object.entries], template literals, [new RegExp])
    and the two Playwright entry points they use ([page.route],
    [route.fulfill]). *)

From Stdlib Require Import List NArith ZArith Bool Ascii String DecimalString Lia.
From Stdlib Require Import Permutation.
Import ListNotations.
Local Open Scope N_scope.
Set Warnings "-register-all".

(** ** ECMAScript values *)

(** A JavaScript string is a finite sequence of UTF-16 code units. *)
Definition code_unit := N.
Definition jsstring := list code_unit.

(** Source-text literals (ASCII) as code-unit sequences. *)
Definition lit (s : string) : jsstring :=
  map N_of_ascii (list_ascii_of_string s).

(** The exceptions the built-ins below can raise. *)
Inductive exn : Type :=
| URIError
| SyntaxError.

(** Completion of an evaluation.  [Beyond] is not an ECMAScript completion:
    it marks the one place where the embedding stops, a pattern handed to
    [new RegExp] that lies outside the pattern sub-language modelled in
    [parsePattern]. *)
Inductive completion (A : Type) : Type :=
| Normal (a : A)
| Throw (e : exn)
| Beyond.
Arguments Normal {A} a.
Arguments Throw {A} e.
Arguments Beyond {A}.

Definition bind {A B} (c : completion A) (k : A -> completion B) : completion B :=
  match c with
  | Normal a => k a
  | Throw e => Throw e
  | Beyond => Beyond
  end.

Notation "x <- c ;; k" := (bind c (fun x => k))
  (at level 61, c at next level, right associativity).

(** The primitive values a query or path parameter can carry.  [VInt z] is
    the Number whose value is the integer [z]. *)
Inductive jsval : Type :=
| VUndefined
| VNull
| VBool (b : bool)
| VInt (z : Z)
| VStr (s : jsstring).

(** The digits of a numeral without its trailing zeros. *)
Fixpoint dropTrailingZeros (digits : jsstring) : jsstring :=
  match digits with
  | [] => []
  | c :: rest =>
      match dropTrailingZeros rest with
      | [] => if c =? 48 then [] else [c]
      | rest' => c :: rest'
      end
  end.

(** [Number::toString] for an integer of [n > 21] digits: the first
    significant digit, the others after a point if there are any, and the
    exponent [e+(n-1)]. *)
Definition exponentForm (digits : jsstring) : jsstring :=
  let exponent :=
    lit "e+" ++ lit (NilZero.string_of_uint (Nat.to_uint (List.length digits - 1))) in
  match dropTrailingZeros digits with
  | [] => digits
  | [d] => d :: exponent
  | d :: more => d :: 46 :: more ++ exponent
  end.

(** [Number::toString] on the Number of integer value [z]: the plain
    decimal numeral below [10^21], the exponent form from there on.  The
    digits are those of [z] itself: so the built-in prints every safe
    integer ([|z| < 2^53]), and the larger Numbers whose shortest digits
    are the exact ones, such as [10^21].  The other Numbers beyond [2^53]
    are printed with fewer digits than [z] has; the properties that depend
    on the digits are stated for safe integers. *)
Definition NumberToString (z : Z) : jsstring :=
  if (Z.abs z <? 10 ^ 21)%Z then lit (NilZero.string_of_int (Z.to_int z))
  else (if (z <? 0)%Z then lit "-" else [])
       ++ exponentForm (lit (NilZero.string_of_int (Z.to_int (Z.abs z)))).

(** [ToString], as applied by template literals and by [encodeURIComponent]. *)
Definition ToString (v : jsval) : jsstring :=
  match v with
  | VUndefined => lit "undefined"
  | VNull => lit "null"
  | VBool true => lit "true"
  | VBool false => lit "false"
  | VInt z => NumberToString z
  | VStr s => s
  end.

(** JSON values, for the response body. *)
Inductive JSON : Type :=
| JNull
| JBool (b : bool)
| JNum (z : Z)
| JStr (s : jsstring)
| JArr (items : list JSON)
| JObj (fields : list (jsstring * JSON)).

(** An object used as a mapping: its own enumerable string-keyed properties
    in the order [Object.entries] lists them. *)
Definition object := list (jsstring * jsval).

Definition Object_entries (o : object) : list (jsstring * jsval) := o.

(** ** Code units named in the source and in the built-ins *)

Definition c_LF : code_unit := 10.
Definition c_CR : code_unit := 13.
Definition c_dollar : code_unit := 36.
Definition c_percent : code_unit := 37.
Definition c_amp : code_unit := 38.
Definition c_apostrophe : code_unit := 39.
Definition c_lparen : code_unit := 40.
Definition c_rparen : code_unit := 41.
Definition c_star : code_unit := 42.
Definition c_plus : code_unit := 43.
Definition c_comma : code_unit := 44.
Definition c_dot : code_unit := 46.
Definition c_slash : code_unit := 47.
Definition c_equals : code_unit := 61.
Definition c_question : code_unit := 63.
Definition c_lbracket : code_unit := 91.
Definition c_backslash : code_unit := 92.
Definition c_rbracket : code_unit := 93.
Definition c_caret : code_unit := 94.
Definition c_backtick : code_unit := 96.
Definition c_lbrace : code_unit := 123.
Definition c_pipe : code_unit := 124.
Definition c_rbrace : code_unit := 125.
Definition c_LS : code_unit := 8232.
Definition c_PS : code_unit := 8233.

Definition isDigit (c : code_unit) : bool := (48 <=? c) && (c <=? 57).
Definition isUpper (c : code_unit) : bool := (65 <=? c) && (c <=? 90).
Definition isLower (c : code_unit) : bool := (97 <=? c) && (c <=? 122).

(** ** String.prototype.replaceAll and String.prototype.replace *)

(** [s.replaceAll(x, r)] for a search string [x] of one code unit and a
    replacement [r] without [$]: every occurrence of the unit is replaced.
    This is the only way the source calls it. *)
Definition replaceAll1 (s : jsstring) (x : code_unit) (r : jsstring) : jsstring :=
  flat_map (fun c => if c =? x then r else [c]) s.

Fixpoint startsWith (p s : jsstring) : bool :=
  match p, s with
  | [], _ => true
  | _ :: _, [] => false
  | a :: p', b :: s' => (a =? b) && startsWith p' s'
  end.

(** [StringIndexOf(s, search, 0)]: the first position at which [search]
    occurs in [s]. *)
Fixpoint indexOf (search s : jsstring) : option nat :=
  if startsWith search s then Some O
  else match s with
       | [] => None
       | _ :: s' => option_map S (indexOf search s')
       end.

(** [GetSubstitution] for a string pattern (no captures, no named groups):
    [$$] is a dollar sign, [$&] the matched text, [$`] the text before the
    match and [$'] the text after it; any other [$] stands for itself. *)
Fixpoint GetSubstitution (matched before after template : jsstring) : jsstring :=
  match template with
  | [] => []
  | c :: t =>
      if c =? c_dollar then
        match t with
        | [] => [c]
        | d :: t' =>
            if d =? c_dollar then c_dollar :: GetSubstitution matched before after t'
            else if d =? c_backtick then before ++ GetSubstitution matched before after t'
            else if d =? c_amp then matched ++ GetSubstitution matched before after t'
            else if d =? c_apostrophe then after ++ GetSubstitution matched before after t'
            else c :: GetSubstitution matched before after t
        end
      else c :: GetSubstitution matched before after t
  end.

(** [s.replace(searchString, replaceValue)] with a string pattern: only the
    first occurrence is replaced. *)
Definition replace (s searchString replaceValue : jsstring) : jsstring :=
  match indexOf searchString s with
  | None => s
  | Some pos =>
      let preceding := firstn pos s in
      let following := skipn (pos + List.length searchString) s in
      preceding
        ++ GetSubstitution searchString preceding following replaceValue
        ++ following
  end.

(** ** encodeURIComponent *)

(** The units [encodeURIComponent] leaves alone: letters, digits and the
    marks [- _ . ! ~ * ' ( )]. *)
Definition uriUnreserved (c : code_unit) : bool :=
  isUpper c || isLower c || isDigit c
  || (c =? 45) || (c =? 95) || (c =? 46) || (c =? 33) || (c =? 126)
  || (c =? 42) || (c =? 39) || (c =? 40) || (c =? 41).

Definition isLeadSurrogate (c : code_unit) : bool := (55296 <=? c) && (c <=? 56319).
Definition isTrailSurrogate (c : code_unit) : bool := (56320 <=? c) && (c <=? 57343).

Definition hexDigit (n : N) : code_unit :=
  let d := N.land n 15 in if d <? 10 then 48 + d else 55 + d.

Definition percentEncode (octet : N) : jsstring :=
  [c_percent; hexDigit (N.shiftr octet 4); hexDigit octet].

(** The UTF-8 octets of a code point. *)
Definition utf8 (cp : N) : list N :=
  if cp <? 128 then [cp]
  else if cp <? 2048 then
    [N.lor 192 (N.shiftr cp 6); N.lor 128 (N.land cp 63)]
  else if cp <? 65536 then
    [N.lor 224 (N.shiftr cp 12); N.lor 128 (N.land (N.shiftr cp 6) 63);
     N.lor 128 (N.land cp 63)]
  else
    [N.lor 240 (N.shiftr cp 18); N.lor 128 (N.land (N.shiftr cp 12) 63);
     N.lor 128 (N.land (N.shiftr cp 6) 63); N.lor 128 (N.land cp 63)].

Definition surrogatePair (lead trail : code_unit) : N :=
  (lead - 55296) * 1024 + (trail - 56320) + 65536.

Definition escapeCodePoint (cp : N) : jsstring :=
  flat_map percentEncode (utf8 cp).

(** The abstract operation [Encode] with the unreserved set of
    [encodeURIComponent]: an unpaired surrogate raises [URIError]. *)
Fixpoint Encode (s : jsstring) : completion jsstring :=
  match s with
  | [] => Normal []
  | c :: rest =>
      if uriUnreserved c then
        r <- Encode rest ;; Normal (c :: r)
      else if isTrailSurrogate c then Throw URIError
      else if isLeadSurrogate c then
        match rest with
        | [] => Throw URIError
        | d :: rest' =>
            if isTrailSurrogate d then
              r <- Encode rest' ;; Normal (escapeCodePoint (surrogatePair c d) ++ r)
            else Throw URIError
        end
      else
        r <- Encode rest ;; Normal (escapeCodePoint c ++ r)
  end.

Definition encodeURIComponent (v : jsval) : completion jsstring :=
  Encode (ToString v).

(** The units [encodeURIComponent] can produce: the unreserved ones and the
    percent sign (the hexadecimal digits are unreserved). *)
Definition encodedUnit (c : code_unit) : bool :=
  uriUnreserved c || (c =? c_percent).

(** ** Array.prototype.join on an array of strings *)

Fixpoint join (sep : jsstring) (xs : list jsstring) : jsstring :=
  match xs with
  | [] => []
  | [x] => x
  | x :: rest => x ++ sep ++ join sep rest
  end.

(** ** new RegExp(pattern) and RegExp.prototype.test

    The pattern sub-language modelled: alternatives separated by [|], each
    a sequence of the assertions [^] and [$], the wildcard [.], identity
    escapes of a syntax character or of [/], and literal characters (with
    the web-compatibility rule that [{] is a literal unless it opens a
    well-formed braced quantifier, and that [}] and []] are literals).  No
    flags are passed by the source, so matching is on code units,
    case-sensitive, single-line. *)

Inductive term : Type :=
| AssertStart
| AssertEnd
| AnyChar
| Char (c : code_unit)
| Bar.

Record RegExp : Type := mkRegExp {
  OriginalSource : jsstring;
  program : list term
}.

Definition isSyntaxCharacter (c : code_unit) : bool :=
  (c =? c_caret) || (c =? c_dollar) || (c =? c_backslash) || (c =? c_dot)
  || (c =? c_star) || (c =? c_plus) || (c =? c_question)
  || (c =? c_lparen) || (c =? c_rparen) || (c =? c_lbracket) || (c =? c_rbracket)
  || (c =? c_lbrace) || (c =? c_rbrace) || (c =? c_pipe).

Fixpoint skipDigits (s : jsstring) : jsstring :=
  match s with
  | [] => []
  | c :: s' => if isDigit c then skipDigits s' else s
  end.

(** Does the text after a [{] complete a braced quantifier:
    [digits }], [digits ,}] or [digits , digits }]? *)
Definition bracedQuantifier (s : jsstring) : bool :=
  match s with
  | [] => false
  | d :: s1 =>
      isDigit d &&
      match skipDigits s1 with
      | [] => false
      | c :: s2 =>
          (c =? c_rbrace)
          || ((c =? c_comma) &&
              match skipDigits s2 with
              | [] => false
              | c' :: _ => c' =? c_rbrace
              end)
      end
  end.

(** Parsing proceeds left to right; [quantifiable] says whether the previous
    term was an atom.  The first character that does not continue the
    sub-language ends the parse: with [SyntaxError] where ECMAScript rejects
    the pattern whatever follows (a quantifier with nothing to repeat, an
    unmatched [)], a lone [\] at the end), with [Beyond] otherwise (groups,
    classes, quantifiers, other escapes). *)
Fixpoint parsePattern (quantifiable : bool) (s : jsstring) : completion (list term) :=
  match s with
  | [] => Normal []
  | c :: s' =>
      if c =? c_caret then
        p <- parsePattern false s' ;; Normal (AssertStart :: p)
      else if c =? c_dollar then
        p <- parsePattern false s' ;; Normal (AssertEnd :: p)
      else if c =? c_dot then
        p <- parsePattern true s' ;; Normal (AnyChar :: p)
      else if c =? c_backslash then
        match s' with
        | [] => Throw SyntaxError
        | e :: s'' =>
            if isSyntaxCharacter e || (e =? c_slash) then
              p <- parsePattern true s'' ;; Normal (Char e :: p)
            else Beyond
        end
      else if (c =? c_star) || (c =? c_plus) || (c =? c_question) then
        if quantifiable then Beyond else Throw SyntaxError
      else if c =? c_lbrace then
        if bracedQuantifier s' then
          if quantifiable then Beyond else Throw SyntaxError
        else
          p <- parsePattern true s' ;; Normal (Char c :: p)
      else if c =? c_rparen then Throw SyntaxError
      else if c =? c_pipe then
        p <- parsePattern false s' ;; Normal (Bar :: p)
      else if (c =? c_lparen) || (c =? c_lbracket) then Beyond
      else
        p <- parsePattern true s' ;; Normal (Char c :: p)
  end.

Definition new_RegExp (pattern : jsstring) : completion RegExp :=
  p <- parsePattern false pattern ;; Normal (mkRegExp pattern p).

Definition isLineTerminator (c : code_unit) : bool :=
  (c =? c_LF) || (c =? c_CR) || (c =? c_LS) || (c =? c_PS).

(** The alternatives of a program: the runs of terms between the bars. *)
Fixpoint alternatives (prog : list term) : list (list term) :=
  match prog with
  | [] => [[]]
  | Bar :: prog' => [] :: alternatives prog'
  | t :: prog' =>
      match alternatives prog' with
      | [] => [[t]]
      | alt :: alts => (t :: alt) :: alts
      end
  end.

(** Match one alternative at the current position; [atStart] says that the
    position is index 0 of the input. *)
Fixpoint matchHere (prog : list term) (atStart : bool) (s : jsstring) : bool :=
  match prog with
  | [] => true
  | AssertStart :: prog' => atStart && matchHere prog' atStart s
  | AssertEnd :: prog' =>
      match s with
      | [] => matchHere prog' atStart s
      | _ :: _ => false
      end
  | AnyChar :: prog' =>
      match s with
      | [] => false
      | c :: s' => negb (isLineTerminator c) && matchHere prog' false s'
      end
  | Char x :: prog' =>
      match s with
      | [] => false
      | c :: s' => (c =? x) && matchHere prog' false s'
      end
  | Bar :: _ => false
  end.

(** Try every start position, from index 0 on. *)
Fixpoint matchFrom (prog : list term) (atStart : bool) (s : jsstring) : bool :=
  matchHere prog atStart s
  || match s with
     | [] => false
     | _ :: s' => matchFrom prog false s'
     end.

(** [test]: some alternative matches at some position. *)
Definition RegExp_test (r : RegExp) (s : jsstring) : bool :=
  existsb (fun alt => matchFrom alt true s) (alternatives (program r)).

(** ** The host: Playwright's page.route and route.fulfill *)

Record Request : Type := mkRequest {
  req_url : jsstring;
  req_method : jsstring
}.

(** The options object handed to [route.fulfill]; an absent or [undefined]
    property is [None]. *)
Record FulfillOptions : Type := mkFulfillOptions {
  opt_path : option jsstring;
  opt_json : option JSON;
  opt_status : option Z
}.

Inductive RouteCall : Type :=
| Fulfill (options : FulfillOptions).

(** A handler, seen from the host: the calls it makes on the route of an
    intercepted request. *)
Definition Handler := Request -> list RouteCall.

Record RouteEntry : Type := mkRouteEntry {
  matcher : RegExp;
  handler : Handler
}.

(** The routing table of a page; [page.route] puts the new entry first. *)
Definition Page := list RouteEntry.

Definition page_route (page : Page) (url : RegExp) (h : Handler) : Page :=
  mkRouteEntry url h :: page.

(** A request is handled by the first entry whose matcher accepts its URL. *)
Definition page_intercept (page : Page) (req : Request) : option (list RouteCall) :=
  match find (fun r => RegExp_test (matcher r) (req_url req)) page with
  | Some r => Some (handler r req)
  | None => None
  end.

(** ** src/index.ts *)

(** [MockApiArg]: the descriptor.  Optional fields left out are [None]. *)
Record MockApiArg : Type := mkMockApiArg {
  path : jsstring;
  status : option jsval;
  method : option jsstring;
  json : option JSON;
  query : option object;
  pathParam : option object
}.

(** [process.env] *)
Record ProcessEnv : Type := mkProcessEnv {
  BASE_URL : option jsstring
}.

(** An environment variable interpolated in a template literal. *)
Definition interpolate (v : option jsstring) : jsstring :=
  match v with
  | Some s => s
  | None => lit "undefined"
  end.

(** [mkQParams] *)
Definition mkQParams (query : object) : jsstring :=
  join (lit "&")
    (map (fun '(param, value) => param ++ lit "=" ++ ToString value)
         (Object_entries query)).

(** [Array.prototype.reduce] with an initial value and a callback that may
    raise. *)
Fixpoint reduce {A B : Type} (f : B -> A -> completion B) (xs : list A) (acc : B)
  : completion B :=
  match xs with
  | [] => Normal acc
  | x :: rest => acc' <- f acc x ;; reduce f rest acc'
  end.

(** The token [{k}]. *)
Definition placeholder (k : jsstring) : jsstring :=
  lit "{" ++ k ++ lit "}".

(** The callback of the reduction in [MockApi]. *)
Definition substitute (acc : jsstring) (kv : jsstring * jsval) : completion jsstring :=
  let '(k, v) := kv in
  e <- encodeURIComponent v ;; Normal (replace acc (placeholder k) e).

(** [path.replaceAll("/", "\\/")] *)
Definition escapeSlashes (p : jsstring) : jsstring :=
  replaceAll1 p c_slash (lit "\/").

(** [pathParam || []] *)
Definition orEmpty (o : option object) : object :=
  match o with
  | Some o' => o'
  | None => []
  end.

(** The constant [pathString] of [MockApi]. *)
Definition pathString (d : MockApiArg) : completion jsstring :=
  reduce substitute (Object_entries (orEmpty (pathParam d))) (escapeSlashes (path d)).

(** The template literal handed to [new RegExp]. *)
Definition matcherSource (env : ProcessEnv) (d : MockApiArg) : completion jsstring :=
  ps <- pathString d ;;
  Normal (lit "^" ++ interpolate (BASE_URL env) ++ ps
          ++ match query d with
             | None => lit "$"
             | Some q => lit "\?" ++ mkQParams q ++ lit "$"
             end).

(** [typeof status === "number" ? status : undefined] *)
Definition numberOrUndefined (s : option jsval) : option Z :=
  match s with
  | Some (VInt n) => Some n
  | _ => None
  end.

(** The handler [MockApi] registers. *)
Definition fulfillHandler (d : MockApiArg) : Handler :=
  fun _ =>
    [Fulfill (mkFulfillOptions (Some (path d)) (json d) (numberOrUndefined (status d)))].

(** The first argument of [page.route]: [new RegExp(...)]. *)
Definition matcherOf (env : ProcessEnv) (d : MockApiArg) : completion RegExp :=
  src <- matcherSource env d ;; new_RegExp src.

(** [MockApi].  The [method] field of the descriptor is not among the
    fields the function takes out of its argument. *)
Definition MockApi (env : ProcessEnv) (page : Page) (d : MockApiArg) : completion Page :=
  re <- matcherOf env d ;;
  Normal (page_route page re (fulfillHandler d)).

(** ** Vocabulary of the specification *)

(** Replace the first occurrence of the token [tok] by the text [rep],
    taken literally. *)
Fixpoint replaceFirst (tok rep s : jsstring) : jsstring :=
  if startsWith tok s then rep ++ skipn (List.length tok) s
  else match s with
       | [] => []
       | c :: s' => c :: replaceFirst tok rep s'
       end.

(** One step of the substitution as the specification words it: the token
    [{key}] gives way to the URL-encoded value. *)
Definition substituteLiteral (acc : jsstring) (kv : jsstring * jsval) : completion jsstring :=
  let '(k, v) := kv in
  e <- encodeURIComponent v ;; Normal (replaceFirst (placeholder k) e acc).

(** The order of the specification: substitute into the path (step 1), then
    escape the forward slashes (step 2). *)
Definition specPathString (d : MockApiArg) : completion jsstring :=
  r <- reduce substitute (Object_entries (orEmpty (pathParam d))) (path d) ;;
  Normal (escapeSlashes r).

(** The [key=value] pairs joined by [&], in mapping order. *)
Fixpoint specQueryPairs (q : list (jsstring * jsval)) : jsstring :=
  match q with
  | [] => []
  | (k, v) :: rest =>
      k ++ lit "=" ++ ToString v
        ++ match rest with
           | [] => []
           | _ :: _ => lit "&" ++ specQueryPairs rest
           end
  end.

(** The query suffix, or the end anchor when there is no query. *)
Definition specQuerySuffix (q : option object) : jsstring :=
  match q with
  | None => lit "$"
  | Some o => lit "\?" ++ specQueryPairs o ++ lit "$"
  end.


(** The URL a test requests for a descriptor: the base followed by the path. *)
Definition requestURL (env : ProcessEnv) (p : jsstring) : jsstring :=
  interpolate (BASE_URL env) ++ p.

Definition startsWithDigit (s : jsstring) : bool :=
  match s with
  | [] => false
  | c :: _ => isDigit c
  end.

(** Paths every unit of which stands for itself in the pattern once the
    slashes are escaped: no syntax character, except the braces of a
    placeholder whose name does not start with a digit. *)
Fixpoint literalPath (p : jsstring) : bool :=
  match p with
  | [] => true
  | c :: p' =>
      (if c =? c_lbrace then negb (startsWithDigit p')
       else (c =? c_rbrace) || negb (isSyntaxCharacter c))
      && literalPath p'
  end.

(** Base URLs made of literal units and dots, as in [http://localhost:3000]. *)
Definition plainBase (b : jsstring) : bool :=
  forallb (fun c => (c =? c_dot) || negb (isSyntaxCharacter c)) b.

Definition baseTerm (c : code_unit) : term :=
  if c =? c_dot then AnyChar else Char c.

(** ** Descriptors and environments used in the examples *)

Definition localhost : ProcessEnv := mkProcessEnv (Some (lit "http://localhost:3000")).
Definition unsetEnv : ProcessEnv := mkProcessEnv None.

(** The first call of the example test: [{ path: "/pets", json: [{...}] }]. *)
Definition petsList : MockApiArg :=
  mkMockApiArg (lit "/pets") None None
    (Some (JArr [JObj [(lit "id", JNum 2); (lit "name", JStr (lit "pet-name"))]]))
    None None.

Definition petById (v : jsval) : MockApiArg :=
  mkMockApiArg (lit "/pets/{id}") None None None None (Some [(lit "id", v)]).

Definition petsQuery : MockApiArg :=
  mkMockApiArg (lit "/pets") None None None
    (Some [(lit "a", VInt 1); (lit "b", VInt 2)]) None.

Definition petsEmptyQuery : MockApiArg :=
  mkMockApiArg (lit "/pets") None None None (Some []) None.

Definition fileByName : MockApiArg :=
  mkMockApiArg (lit "/files/{dir/name}") None None None None
    (Some [(lit "dir/name", VStr (lit "readme"))]).

Definition slashKey : MockApiArg :=
  mkMockApiArg (lit "/a/{x/y}") None None None None (Some [(lit "x/y", VInt 1)]).

Definition reportDot : MockApiArg :=
  mkMockApiArg (lit "/report.csv") None None None None None.

Definition reportDash : MockApiArg :=
  mkMockApiArg (lit "/report-csv") None None None None None.

Definition someRequest : Request :=
  mkRequest (lit "http://localhost:3000/pets") (lit "GET").

(** [petsList] with the method spelled out, as in the second call of the
    example test. *)
Definition petsListPost : MockApiArg :=
  mkMockApiArg (lit "/pets") None (Some (lit "post")) (json petsList) None None.

(** A descriptor whose status is the response key ["default"]. *)
Definition petsDefault : MockApiArg :=
  mkMockApiArg (lit "/pets") (Some (VStr (lit "default"))) None (json petsList) None None.

Definition petTemplate : MockApiArg :=
  mkMockApiArg (lit "/pets/{id}") None None None None None.

Definition petToy : MockApiArg :=
  mkMockApiArg (lit "/pets/{id}/toys/{toy}") None None None None
    (Some [(lit "id", VInt 42)]).

(** ** Vocabulary of the further properties *)

(** Text no unit of which is a syntax character of the pattern language. *)
Definition literalText (t : jsstring) : bool :=
  forallb (fun c => negb (isSyntaxCharacter c)) t.

(** The texts a base URL, read as a pattern, stands for: a dot stands for
    any unit that is not a line terminator, any other unit for itself. *)
Fixpoint baseAccepts (b u : jsstring) : bool :=
  match b, u with
  | [], [] => true
  | c :: b', x :: u' =>
      (if c =? c_dot then negb (isLineTerminator x) else x =? c)
      && baseAccepts b' u'
  | _, _ => false
  end.

(** The query part of the URL a descriptor is meant for. *)
Definition queryString (q : option object) : jsstring :=
  match q with
  | None => []
  | Some o => lit "?" ++ mkQParams o
  end.

(** Text without surrogate code units. *)
Definition noSurrogate (s : jsstring) : bool :=
  forallb (fun c => negb (isLeadSurrogate c || isTrailSurrogate c)) s.


(** A path template cut into pieces: plain text and placeholders. *)
Inductive piece : Type :=
| Text (t : jsstring)
| Hole (name : jsstring).

Definition renderPiece (p : piece) : jsstring :=
  match p with
  | Text t => t
  | Hole name => placeholder name
  end.

Definition render (ps : list piece) : jsstring :=
  flat_map renderPiece ps.

Definition braceFree (t : jsstring) : Prop :=
  ~ In c_lbrace t /\ ~ In c_rbrace t.

Definition pieceContent (p : piece) : jsstring :=
  match p with
  | Text t => t
  | Hole name => name
  end.

(** Put the text [e] in the place of the first placeholder named [k]. *)
Fixpoint fillHole (k e : jsstring) (ps : list piece) : list piece :=
  match ps with
  | [] => []
  | Text t :: rest => Text t :: fillHole k e rest
  | Hole name :: rest =>
      if list_eq_dec N.eq_dec name k then Text e :: rest
      else Hole name :: fillHole k e rest
  end.

(** Escaping the slashes, piece by piece. *)
Definition escapePiece (p : piece) : piece :=
  match p with
  | Text t => Text (escapeSlashes t)
  | Hole name => Hole (escapeSlashes name)
  end.

Definition piecesBraceFree (ps : list piece) : Prop :=
  forall p, In p ps -> braceFree (pieceContent p).

(** The second call of the example test (src/unnamed/part_000):
    [{ path: '/pets', method: "post", json: { id: 0, name: "pet-name" } }]. *)
Definition petsCreate : MockApiArg :=
  mkMockApiArg (lit "/pets") None (Some (lit "post"))
    (Some (JObj [(lit "id", JNum 0); (lit "name", JStr (lit "pet-name"))]))
    None None.

(** The test "mocking pets": the two registrations, one after the other. *)
Definition mockingPets (env : ProcessEnv) (page : Page) : completion Page :=
  page1 <- MockApi env page petsList ;; MockApi env page1 petsCreate.


(** A path that ends in a backslash, and a path that ends in a bar with an
    empty query mapping. *)
Definition petsBackslash : MockApiArg :=
  mkMockApiArg (lit "/pets\") None None None None None.

Definition petsBarEmptyQuery : MockApiArg :=
  mkMockApiArg (lit "/pets|") None None None (Some []) None.

(** * Properties *)

(** Split a disjunction of tests known to be false into its tests. *)
Ltac split_orb H :=
  repeat match type of H with
         | (_ || _)%bool = false =>
             let H' := fresh "Hc" in apply orb_false_elim in H as [H H']
         end.

(** ** Lists of code units *)

Lemma jsstring_ind2 (P : jsstring -> Prop) :
  P [] ->
  (forall c, P [c]) ->
  (forall c d s, P s -> P (d :: s) -> P (c :: d :: s)) ->
  forall s, P s.
Proof.
  intros H0 H1 H2 s.
  assert (both : P s /\ forall c, P (c :: s)).
  { induction s as [|d s [IHs IHc]].
    - split; [exact H0 | exact H1].
    - split; [apply IHc | intros c; apply H2; [exact IHs | apply IHc]]. }
  exact (proj1 both).
Qed.

Lemma startsWith_split (p s : jsstring) :
  startsWith p s = true -> s = p ++ skipn (List.length p) s.
Proof.
  revert s; induction p as [|a p IH]; intros [|b s] H; simpl in *;
    try reflexivity; try discriminate.
  apply andb_true_iff in H as [Hab Hps].
  apply N.eqb_eq in Hab; subst b.
  f_equal; apply IH; exact Hps.
Qed.

Lemma startsWith_app (p t : jsstring) : startsWith p (p ++ t) = true.
Proof.
  induction p as [|a p IH]; simpl; [reflexivity|].
  rewrite N.eqb_refl; exact IH.
Qed.

Lemma skipn_length_app (p t : jsstring) : skipn (List.length p) (p ++ t) = t.
Proof. induction p as [|a p IH]; simpl; [reflexivity | exact IH]. Qed.


(** ** String.prototype.replace against literal replacement *)

Lemma GetSubstitution_plain (matched before after template : jsstring) :
  ~ In c_dollar template ->
  GetSubstitution matched before after template = template.
Proof.
  induction template as [|c t IH]; intros Hd; [reflexivity|].
  cbn [GetSubstitution].
  destruct (N.eqb_spec c c_dollar) as [->|_].
  - exfalso; apply Hd; left; reflexivity.
  - f_equal; apply IH; intros Hin; apply Hd; right; exact Hin.
Qed.

(** A replacement without [$] is inserted as it is: [replace] agrees with
    the literal replacement of the first occurrence. *)
Lemma replace_literal (s tok rep : jsstring) :
  ~ In c_dollar rep -> replace s tok rep = replaceFirst tok rep s.
Proof.
  intros Hd; unfold replace.
  induction s as [|c s IH]; cbn [indexOf replaceFirst].
  - destruct (startsWith tok []); [|reflexivity].
    cbn [firstn Nat.add app]; rewrite GetSubstitution_plain by exact Hd; reflexivity.
  - destruct (startsWith tok (c :: s)).
    + cbn [firstn Nat.add app]; rewrite GetSubstitution_plain by exact Hd; reflexivity.
    + destruct (indexOf tok s) as [pos|]; cbn [option_map].
      * cbn [firstn Nat.add skipn app].
        rewrite GetSubstitution_plain in * by exact Hd.
        f_equal; exact IH.
      * f_equal; exact IH.
Qed.

(** ** The alphabet of encodeURIComponent *)

Lemma hexDigit_unreserved (n : N) : uriUnreserved (hexDigit n) = true.
Proof.
  unfold hexDigit.
  assert (Hlt : N.land n 15 < 16).
  { change 15 with (N.ones 4); rewrite N.land_ones.
    apply N.mod_lt; discriminate. }
  set (d := N.land n 15) in *; cbv zeta.
  unfold uriUnreserved, isUpper, isLower, isDigit.
  destruct (d <? 10) eqn:E.
  - apply N.ltb_lt in E.
    replace (48 <=? 48 + d) with true by (symmetry; apply N.leb_le; lia).
    replace (48 + d <=? 57) with true by (symmetry; apply N.leb_le; lia).
    cbn [andb]; rewrite !orb_true_r; reflexivity.
  - apply N.ltb_ge in E.
    replace (65 <=? 55 + d) with true by (symmetry; apply N.leb_le; lia).
    replace (55 + d <=? 90) with true by (symmetry; apply N.leb_le; lia).
    reflexivity.
Qed.

Lemma escapeCodePoint_units (cp : N) :
  Forall (fun c => encodedUnit c = true) (escapeCodePoint cp).
Proof.
  unfold escapeCodePoint.
  induction (utf8 cp) as [|o os IH]; cbn [flat_map]; [constructor|].
  unfold percentEncode; cbn [app].
  repeat constructor; try exact IH;
    unfold encodedUnit; rewrite hexDigit_unreserved; reflexivity.
Qed.

Lemma Encode_units (s r : jsstring) :
  Encode s = Normal r -> Forall (fun c => encodedUnit c = true) r.
Proof.
  revert r; induction s as [|c|c d s IHs IHd] using jsstring_ind2; intros r H.
  - injection H as <-; constructor.
  - cbn [Encode bind] in H.
    destruct (uriUnreserved c) eqn:Eu; cbn [bind] in H.
    + injection H as <-; repeat constructor. unfold encodedUnit; rewrite Eu; reflexivity.
    + destruct (isTrailSurrogate c); [discriminate|].
      destruct (isLeadSurrogate c); [discriminate|].
      injection H as <-; rewrite app_nil_r; apply escapeCodePoint_units.
  - change (Encode (c :: d :: s)) with
      (if uriUnreserved c then r <- Encode (d :: s) ;; Normal (c :: r)
       else if isTrailSurrogate c then Throw URIError
       else if isLeadSurrogate c then
         if isTrailSurrogate d then
           r <- Encode s ;; Normal (escapeCodePoint (surrogatePair c d) ++ r)
         else Throw URIError
       else r <- Encode (d :: s) ;; Normal (escapeCodePoint c ++ r)) in H.
    destruct (uriUnreserved c) eqn:Eu.
    + destruct (Encode (d :: s)) as [r'| |]; try discriminate.
      cbn [bind] in H; injection H as <-.
      constructor; [unfold encodedUnit; rewrite Eu; reflexivity|].
      apply IHd; reflexivity.
    + destruct (isTrailSurrogate c); [discriminate|].
      destruct (isLeadSurrogate c).
      * destruct (isTrailSurrogate d); [|discriminate].
        destruct (Encode s) as [r'| |]; try discriminate.
        cbn [bind] in H; injection H as <-.
        apply Forall_app; split; [apply escapeCodePoint_units | apply IHs; reflexivity].
      * destruct (Encode (d :: s)) as [r'| |]; try discriminate.
        cbn [bind] in H; injection H as <-.
        apply Forall_app; split; [apply escapeCodePoint_units|].
        apply IHd; reflexivity.
Qed.

Lemma encoded_free (x : code_unit) (v : jsval) (e : jsstring) :
  encodedUnit x = false -> encodeURIComponent v = Normal e -> ~ In x e.
Proof.
  intros Hx He Hin.
  apply Encode_units in He.
  rewrite Forall_forall in He.
  rewrite (He x Hin) in Hx; discriminate.
Qed.

(** ** Escaping the slashes *)

Lemma escapeSlashes_app (a b : jsstring) :
  escapeSlashes (a ++ b) = escapeSlashes a ++ escapeSlashes b.
Proof. apply flat_map_app. Qed.

Lemma escapeSlashes_slash (s : jsstring) :
  escapeSlashes (c_slash :: s) = c_backslash :: c_slash :: escapeSlashes s.
Proof. reflexivity. Qed.

Lemma escapeSlashes_other (c : code_unit) (s : jsstring) :
  c <> c_slash -> escapeSlashes (c :: s) = c :: escapeSlashes s.
Proof.
  intros Hc; unfold escapeSlashes, replaceAll1; cbn [flat_map].
  destruct (N.eqb_spec c c_slash); [contradiction | reflexivity].
Qed.

Lemma escapeSlashes_free (s : jsstring) :
  ~ In c_slash s -> escapeSlashes s = s.
Proof.
  induction s as [|c s IH]; intros H; [reflexivity|].
  rewrite escapeSlashes_other by (intros ->; apply H; left; reflexivity).
  f_equal; apply IH; intros Hin; apply H; right; exact Hin.
Qed.

(** A token without slash that does not end in a backslash is found in the
    escaped text exactly where it is found in the text. *)
Lemma startsWith_escape (tok s : jsstring) :
  ~ In c_slash tok ->
  last tok c_rbrace <> c_backslash ->
  startsWith tok (escapeSlashes s) = startsWith tok s.
Proof.
  revert s; induction tok as [|a tok IH]; intros s Hs Hl; [reflexivity|].
  assert (Ha : a <> c_slash) by (intros ->; apply Hs; left; reflexivity).
  assert (Hs' : ~ In c_slash tok) by (intros Hin; apply Hs; right; exact Hin).
  destruct s as [|c s]; [reflexivity|].
  destruct (N.eqb_spec c c_slash) as [->|Hc].
  - rewrite escapeSlashes_slash; cbn [startsWith].
    replace (a =? c_slash) with false by (symmetry; apply N.eqb_neq; exact Ha).
    destruct (N.eqb_spec a c_backslash) as [->|_]; [|reflexivity].
    destruct tok as [|b tok]; [exfalso; apply Hl; reflexivity|].
    cbn [startsWith andb].
    replace (b =? c_slash) with false; [reflexivity|].
    symmetry; apply N.eqb_neq; intros ->; apply Hs'; left; reflexivity.
  - rewrite escapeSlashes_other by exact Hc; cbn [startsWith].
    rewrite IH; [reflexivity | exact Hs' |].
    destruct tok as [|b tok]; [discriminate | exact Hl].
Qed.

Lemma replaceFirst_cons (tok rep : jsstring) (c : code_unit) (s : jsstring) :
  replaceFirst tok rep (c :: s) =
  if startsWith tok (c :: s) then rep ++ skipn (List.length tok) (c :: s)
  else c :: replaceFirst tok rep s.
Proof. reflexivity. Qed.

(** Literal replacement of such a token commutes with the escaping, provided
    the text put in has no slash either. *)
Lemma replaceFirst_escape (tok rep s : jsstring) :
  ~ In c_slash tok ->
  last tok c_rbrace <> c_backslash ->
  ~ In c_slash rep ->
  escapeSlashes (replaceFirst tok rep s) = replaceFirst tok rep (escapeSlashes s).
Proof.
  intros Ht Hl Hr.
  induction s as [|c s IH].
  - cbn [replaceFirst escapeSlashes replaceAll1 flat_map].
    destruct (startsWith tok []); [|reflexivity].
    rewrite skipn_nil, app_nil_r; apply escapeSlashes_free; exact Hr.
  - rewrite replaceFirst_cons.
    destruct (startsWith tok (c :: s)) eqn:E.
    + apply startsWith_split in E.
      set (t := skipn (List.length tok) (c :: s)) in *.
      rewrite E, !escapeSlashes_app, (escapeSlashes_free tok Ht),
        (escapeSlashes_free rep Hr).
      destruct (tok ++ escapeSlashes t) as [|x l] eqn:Ex.
      * apply app_eq_nil in Ex as [-> ->]; reflexivity.
      * rewrite replaceFirst_cons, <- Ex, startsWith_app, skipn_length_app.
        reflexivity.
    + assert (E' := E); rewrite <- (startsWith_escape tok (c :: s) Ht Hl) in E'.
      destruct (N.eqb_spec c c_slash) as [->|Hc].
      * rewrite !escapeSlashes_slash in *.
        rewrite replaceFirst_cons, E', replaceFirst_cons.
        replace (startsWith tok (c_slash :: escapeSlashes s)) with false;
          [rewrite IH; reflexivity|].
        destruct tok as [|a tok]; [discriminate E|].
        cbn [startsWith].
        replace (a =? c_slash) with false; [reflexivity|].
        symmetry; apply N.eqb_neq; intros ->; apply Ht; left; reflexivity.
      * rewrite !escapeSlashes_other in * by exact Hc.
        rewrite replaceFirst_cons, E', IH; reflexivity.
Qed.

Lemma placeholder_unfold (k : jsstring) :
  placeholder k = c_lbrace :: k ++ [c_rbrace].
Proof. reflexivity. Qed.

Lemma placeholder_no_slash (k : jsstring) :
  ~ In c_slash k -> ~ In c_slash (placeholder k).
Proof.
  intros Hk; rewrite placeholder_unfold; intros [H|H]; [discriminate|].
  apply in_app_or in H as [H|[H|[]]]; [exact (Hk H) | discriminate].
Qed.

Lemma placeholder_last (k : jsstring) :
  last (placeholder k) c_rbrace <> c_backslash.
Proof.
  rewrite placeholder_unfold, app_comm_cons, last_last; discriminate.
Qed.

(** One step of the reduction, on a text and on its escaped form. *)
Lemma substitute_literal (acc : jsstring) (kv : jsstring * jsval) :
  substitute acc kv = substituteLiteral acc kv.
Proof.
  destruct kv as [k v]; unfold substitute, substituteLiteral.
  destruct (encodeURIComponent v) as [e| |] eqn:Ee; try reflexivity.
  cbn [bind]; rewrite replace_literal; [reflexivity|].
  apply (encoded_free c_dollar v e); [reflexivity | exact Ee].
Qed.

Lemma substitute_escape (acc k : jsstring) (v : jsval) :
  ~ In c_slash k ->
  substitute (escapeSlashes acc) (k, v) =
  (r <- substitute acc (k, v) ;; Normal (escapeSlashes r)).
Proof.
  intros Hk; rewrite !substitute_literal; unfold substituteLiteral.
  destruct (encodeURIComponent v) as [e| |] eqn:Ee; try reflexivity.
  cbn [bind]; rewrite replaceFirst_escape; [reflexivity | | |].
  - apply placeholder_no_slash; exact Hk.
  - apply placeholder_last.
  - apply (encoded_free c_slash v e); [reflexivity | exact Ee].
Qed.

Lemma reduce_substitute_escape (entries : list (jsstring * jsval)) (p : jsstring) :
  (forall k v, In (k, v) entries -> ~ In c_slash k) ->
  reduce substitute entries (escapeSlashes p) =
  (r <- reduce substitute entries p ;; Normal (escapeSlashes r)).
Proof.
  revert p; induction entries as [|[k v] rest IH]; intros p Hk; [reflexivity|].
  cbn [reduce].
  rewrite substitute_escape by (apply (Hk k v); left; reflexivity).
  destruct (substitute p (k, v)) as [r| |]; try reflexivity.
  cbn [bind]; apply IH; intros k' v' Hin; apply (Hk k' v'); right; exact Hin.
Qed.

(** ** Placeholders that stay *)

Lemma token_within (k x z : jsstring) :
  ~ In c_lbrace k ->
  startsWith (k ++ [c_rbrace]) (x ++ c_lbrace :: z) = true ->
  exists x', x = k ++ c_rbrace :: x'.
Proof.
  revert x; induction k as [|a k IH]; intros x Hk H.
  - destruct x as [|c x]; cbn [app startsWith] in H.
    + apply andb_true_iff in H as [H _]; discriminate.
    + apply andb_true_iff in H as [H _]; apply N.eqb_eq in H; subst c.
      exists x; reflexivity.
  - destruct x as [|c x]; cbn [app startsWith] in H;
      apply andb_true_iff in H as [Hac H]; apply N.eqb_eq in Hac; subst.
    + exfalso; apply Hk; left; reflexivity.
    + destruct (IH x) as [x' ->]; [intros Hin; apply Hk; right; exact Hin | exact H |].
      exists x'; reflexivity.
Qed.

Lemma token_same (k name y : jsstring) :
  ~ In c_rbrace k -> ~ In c_rbrace name ->
  startsWith (k ++ [c_rbrace]) (name ++ c_rbrace :: y) = true ->
  k = name.
Proof.
  revert name; induction k as [|a k IH]; intros name Hk Hn H.
  - destruct name as [|c name]; [reflexivity|].
    cbn [app startsWith] in H.
    apply andb_true_iff in H as [H _]; apply N.eqb_eq in H; subst c.
    exfalso; apply Hn; left; reflexivity.
  - destruct name as [|c name]; cbn [app startsWith] in H;
      apply andb_true_iff in H as [Hac H]; apply N.eqb_eq in Hac; subst.
    + exfalso; apply Hk; left; reflexivity.
    + f_equal; apply IH; [| | exact H]; intros Hin;
        [apply Hk | apply Hn]; right; exact Hin.
Qed.

Lemma replaceFirst_skip (tok rep n z : jsstring) :
  ~ In c_lbrace n ->
  replaceFirst (c_lbrace :: tok) rep (n ++ z) =
  n ++ replaceFirst (c_lbrace :: tok) rep z.
Proof.
  induction n as [|c n IH]; intros Hn; [reflexivity|].
  cbn [app]; rewrite replaceFirst_cons; cbn [startsWith].
  replace (c_lbrace =? c) with false.
  - cbn [andb]; f_equal; apply IH; intros Hin; apply Hn; right; exact Hin.
  - symmetry; apply N.eqb_neq; intros <-; apply Hn; left; reflexivity.
Qed.

(** Replacing the token of another key leaves the token [{name}] in place. *)
Lemma replaceFirst_keeps (k name rep x y : jsstring) :
  ~ In c_lbrace k -> ~ In c_rbrace k ->
  ~ In c_lbrace name -> ~ In c_rbrace name ->
  k <> name ->
  exists x' y',
    replaceFirst (placeholder k) rep (x ++ placeholder name ++ y) =
    x' ++ placeholder name ++ y'.
Proof.
  intros Hkl Hkr Hnl Hnr Hne.
  induction x as [|c x IH].
  - cbn [app]; rewrite (placeholder_unfold name); cbn [app].
    rewrite replaceFirst_cons.
    destruct (startsWith (placeholder k) (c_lbrace :: (name ++ [c_rbrace]) ++ y)) eqn:E.
    + exfalso; apply Hne.
      rewrite placeholder_unfold in E; cbn [startsWith] in E.
      apply andb_true_iff in E as [_ E].
      rewrite <- app_assoc in E; cbn [app] in E.
      exact (token_same k name y Hkr Hnr E).
    + rewrite <- app_assoc; cbn [app].
      rewrite (placeholder_unfold k), replaceFirst_skip by exact Hnl.
      rewrite replaceFirst_cons; cbn [startsWith andb].
      change (c_lbrace =? c_rbrace) with false; cbn [andb].
      exists [], (replaceFirst (c_lbrace :: k ++ [c_rbrace]) rep y).
      cbn [app]; rewrite <- app_assoc; reflexivity.
  - cbn [app]; rewrite replaceFirst_cons.
    destruct (startsWith (placeholder k) (c :: x ++ placeholder name ++ y)) eqn:E.
    + assert (E' := E).
      rewrite placeholder_unfold in E'; cbn [startsWith] in E'.
      apply andb_true_iff in E' as [Hc E']; apply N.eqb_eq in Hc; subst c.
      rewrite (placeholder_unfold name) in E'; cbn [app] in E'.
      destruct (token_within k x _ Hkl E') as [x' ->].
      exists (rep ++ x'), y.
      replace (c_lbrace :: (k ++ c_rbrace :: x') ++ placeholder name ++ y)
        with (placeholder k ++ x' ++ placeholder name ++ y).
      * rewrite skipn_length_app, <- app_assoc; reflexivity.
      * rewrite (placeholder_unfold k); cbn [app].
        rewrite <- !app_assoc; reflexivity.
    + destruct IH as (x' & y' & ->).
      exists (c :: x'), y'; reflexivity.
Qed.

Lemma reduce_keeps (entries : list (jsstring * jsval)) (name x y r : jsstring) :
  ~ In c_lbrace name -> ~ In c_rbrace name ->
  (forall k v, In (k, v) entries ->
     k <> name /\ ~ In c_lbrace k /\ ~ In c_rbrace k) ->
  reduce substitute entries (x ++ placeholder name ++ y) = Normal r ->
  exists x' y', r = x' ++ placeholder name ++ y'.
Proof.
  intros Hnl Hnr.
  revert x y; induction entries as [|[k v] rest IH]; intros x y Hk H.
  - injection H as <-; exists x, y; reflexivity.
  - cbn [reduce] in H; rewrite substitute_literal in H.
    unfold substituteLiteral in H.
    destruct (encodeURIComponent v) as [e| |]; try discriminate.
    cbn [bind] in H.
    destruct (Hk k v (or_introl eq_refl)) as (Hne & Hkl & Hkr).
    destruct (replaceFirst_keeps k name e x y Hkl Hkr Hnl Hnr Hne) as (x' & y' & E).
    rewrite E in H.
    apply (IH x' y'); [|exact H].
    intros k' v' Hin; apply (Hk k' v'); right; exact Hin.
Qed.

(** ** Paths without placeholder *)

Lemma escapeSlashes_split (c : code_unit) (s u r : jsstring) :
  c <> c_backslash -> c <> c_slash ->
  escapeSlashes s = u ++ c :: r ->
  exists u0 r0, s = u0 ++ c :: r0 /\ escapeSlashes r0 = r.
Proof.
  intros Hb Hs; revert u; induction s as [|x s IH]; intros u H.
  - destruct u; discriminate.
  - destruct (N.eqb_spec x c_slash) as [->|Hx].
    + rewrite escapeSlashes_slash in H.
      destruct u as [|u1 [|u2 u]]; cbn [app] in H.
      * injection H as H _; congruence.
      * injection H as _ H _; congruence.
      * injection H as _ _ H.
        destruct (IH u H) as (u0 & r0 & -> & Hr).
        exists (c_slash :: u0), r0; split; [reflexivity | exact Hr].
    + rewrite escapeSlashes_other in H by exact Hx.
      destruct u as [|u1 u]; cbn [app] in H.
      * injection H as -> <-. exists [], s; split; reflexivity.
      * injection H as _ H.
        destruct (IH u H) as (u0 & r0 & -> & Hr).
        exists (x :: u0), r0; split; [reflexivity | exact Hr].
Qed.



(** ** The query string *)

Lemma mkQParams_pairs (q : object) : mkQParams q = specQueryPairs q.
Proof.
  unfold mkQParams, Object_entries.
  induction q as [|[k v] rest IH]; [reflexivity|].
  destruct rest as [|kv rest].
  - cbn [map join specQueryPairs]; rewrite !app_nil_r; reflexivity.
  - change (specQueryPairs ((k, v) :: kv :: rest))
      with (k ++ lit "=" ++ ToString v ++ lit "&" ++ specQueryPairs (kv :: rest)).
    rewrite <- IH; cbn [map join].
    rewrite <- !app_assoc; reflexivity.
Qed.

(** ** Parsing the patterns MockApi assembles *)

Lemma parse_base (base rest : jsstring) (qf : bool) :
  plainBase base = true ->
  exists qf',
    parsePattern qf (base ++ rest) =
    (p <- parsePattern qf' rest ;; Normal (map baseTerm base ++ p)).
Proof.
  revert qf; induction base as [|c base IH]; intros qf Hb.
  - exists qf; cbn [app map]. destruct (parsePattern qf rest); reflexivity.
  - cbn [plainBase forallb] in Hb; apply andb_true_iff in Hb as [Hc Hb].
    destruct (IH true Hb) as [qf' E]; exists qf'.
    cbn [app map parsePattern]; unfold baseTerm at 1.
    destruct (N.eqb_spec c c_dot) as [->|Hd].
    + cbn; rewrite E; destruct (parsePattern qf' rest); reflexivity.
    + cbn [orb] in Hc; apply negb_true_iff in Hc.
      unfold isSyntaxCharacter in Hc; split_orb Hc.
      apply N.eqb_neq in Hd.
      repeat match goal with H : (c =? _) = false |- _ => rewrite H; clear H end.
      cbn [orb]; rewrite E; destruct (parsePattern qf' rest); reflexivity.
Qed.

Lemma bracedQuantifier_after (p : jsstring) :
  startsWithDigit p = false ->
  bracedQuantifier (escapeSlashes p ++ lit "$") = false.
Proof.
  destruct p as [|c p]; intros H; [reflexivity|].
  cbn [startsWithDigit] in H.
  destruct (N.eqb_spec c c_slash) as [->|Hc].
  - reflexivity.
  - rewrite escapeSlashes_other by exact Hc.
    cbn [app bracedQuantifier]; rewrite H; reflexivity.
Qed.

Lemma parse_path (p : jsstring) (qf : bool) :
  literalPath p = true ->
  parsePattern qf (escapeSlashes p ++ lit "$") = Normal (map Char p ++ [AssertEnd]).
Proof.
  revert qf; induction p as [|c p IH]; intros qf Hp; [reflexivity|].
  cbn [literalPath] in Hp; apply andb_true_iff in Hp as [Hc Hp].
  destruct (N.eqb_spec c c_slash) as [->|Hs].
  - rewrite escapeSlashes_slash.
    change (parsePattern qf ((c_backslash :: c_slash :: escapeSlashes p) ++ lit "$"))
      with (q <- parsePattern true (escapeSlashes p ++ lit "$") ;;
            Normal (Char c_slash :: q)).
    rewrite (IH true Hp); reflexivity.
  - rewrite escapeSlashes_other by exact Hs.
    cbn [app map parsePattern].
    destruct (N.eqb_spec c c_lbrace) as [->|Hl].
    + apply negb_true_iff in Hc.
      change (parsePattern qf (c_lbrace :: escapeSlashes p ++ lit "$"))
        with (if bracedQuantifier (escapeSlashes p ++ lit "$")
              then if qf then Beyond else Throw SyntaxError
              else q <- parsePattern true (escapeSlashes p ++ lit "$") ;;
                   Normal (Char c_lbrace :: q)).
      rewrite (bracedQuantifier_after p Hc), (IH true Hp); reflexivity.
    + destruct (N.eqb_spec c c_rbrace) as [->|Hr].
      * change (parsePattern qf (c_rbrace :: escapeSlashes p ++ lit "$"))
          with (q <- parsePattern true (escapeSlashes p ++ lit "$") ;;
                Normal (Char c_rbrace :: q)).
        rewrite (IH true Hp); reflexivity.
      * cbn [orb] in Hc; apply negb_true_iff in Hc.
        unfold isSyntaxCharacter in Hc; split_orb Hc.
        repeat match goal with H : (c =? _) = false |- _ => rewrite H; clear H end.
        cbn [orb]; rewrite (IH true Hp); reflexivity.
Qed.

(** ** Matching *)

Lemma matchFrom_anchored (prog : list term) (s : jsstring) :
  matchFrom (AssertStart :: prog) true s = matchHere (AssertStart :: prog) true s.
Proof.
  assert (H : forall t, matchFrom (AssertStart :: prog) false t = false)
    by (induction t as [|c t IH]; [reflexivity | exact IH]).
  destruct s as [|c s]; cbn [matchFrom]; [apply orb_false_r|].
  rewrite H; apply orb_false_r.
Qed.

Lemma matchHere_literal (p s : jsstring) (b : bool) :
  matchHere (map Char p ++ [AssertEnd]) b s = true <-> s = p.
Proof.
  revert s b; induction p as [|x p IH]; intros s b; cbn [map app matchHere].
  - destruct s; split; intros H; try reflexivity; discriminate.
  - destruct s as [|c s]; [split; discriminate|].
    rewrite andb_true_iff, N.eqb_eq, IH.
    split; [intros [-> ->]; reflexivity | intros H; injection H as -> ->; auto].
Qed.

Lemma matchHere_base (base : jsstring) (rest : list term) (b : bool) (s : jsstring) :
  matchHere (map baseTerm base ++ rest) b s = true ->
  exists u s' b',
    s = u ++ s' /\ List.length u = List.length base /\ matchHere rest b' s' = true.
Proof.
  revert b s; induction base as [|x base IH]; intros b s H.
  - exists [], s, b; auto.
  - cbn [map app] in H.
    assert (Hstep : exists c s1, s = c :: s1
                      /\ matchHere (map baseTerm base ++ rest) false s1 = true).
    { unfold baseTerm at 1 in H.
      destruct (x =? c_dot); cbn [matchHere] in H;
        (destruct s as [|c s1]; [discriminate|]);
        apply andb_true_iff in H as [_ H]; eauto. }
    destruct Hstep as (c & s1 & -> & H1).
    destruct (IH false s1 H1) as (u & s' & b' & -> & Hlen & Hm).
    exists (c :: u), s', b'; cbn [List.length app]; auto.
Qed.

Lemma matchHere_base_self (base p : jsstring) (b : bool) :
  matchHere (map baseTerm base ++ map Char p ++ [AssertEnd]) b (base ++ p) = true.
Proof.
  revert b; induction base as [|x base IH]; intros b; cbn [map app].
  - apply matchHere_literal; reflexivity.
  - unfold baseTerm at 1.
    destruct (N.eqb_spec x c_dot) as [->|_]; cbn [matchHere].
    + apply IH.
    + rewrite N.eqb_refl; apply IH.
Qed.

Lemma alternatives_single (prog : list term) :
  Forall (fun t => t <> Bar) prog -> alternatives prog = [prog].
Proof.
  induction 1 as [|t prog Ht _ IH]; [reflexivity|].
  cbn [alternatives]; rewrite IH.
  destruct t; try reflexivity; contradiction.
Qed.

Lemma literal_program_no_bar (base t : jsstring) :
  Forall (fun x => x <> Bar)
    (AssertStart :: map baseTerm base ++ map Char t ++ [AssertEnd]).
Proof.
  constructor; [discriminate|].
  apply Forall_app; split; [|apply Forall_app; split].
  - apply Forall_forall; intros x Hin; apply in_map_iff in Hin as (c & <- & _).
    unfold baseTerm; destruct (c =? c_dot); discriminate.
  - apply Forall_forall; intros x Hin; apply in_map_iff in Hin as (c & <- & _).
    discriminate.
  - repeat constructor; discriminate.
Qed.

(** A program without bar is its only alternative. *)
Lemma RegExp_test_single (r : RegExp) (s : jsstring) :
  Forall (fun t => t <> Bar) (program r) ->
  RegExp_test r s = matchFrom (program r) true s.
Proof.
  intros H; unfold RegExp_test; rewrite (alternatives_single _ H).
  cbn [existsb]; apply orb_false_r.
Qed.

(** ** What MockApi registers *)


Lemma MockApi_inv (env : ProcessEnv) (page page' : Page) (d : MockApiArg) :
  MockApi env page d = Normal page' ->
  exists re,
    matcherOf env d = Normal re
    /\ page' = mkRouteEntry re (fulfillHandler d) :: page.
Proof.
  unfold MockApi, page_route; intros H.
  destruct (matcherOf env d) as [re| |]; try discriminate.
  injection H as <-; exists re; split; reflexivity.
Qed.

Lemma page_intercept_first (page : Page) (re : RegExp) (h : Handler) (req : Request) :
  RegExp_test re (req_url req) = true ->
  page_intercept (mkRouteEntry re h :: page) req = Some (h req).
Proof.
  intros H; unfold page_intercept; cbn [find matcher]; rewrite H; reflexivity.
Qed.

Lemma reduce_substitute_literal (entries : list (jsstring * jsval)) (acc : jsstring) :
  reduce substitute entries acc = reduce substituteLiteral entries acc.
Proof.
  revert acc; induction entries as [|kv rest IH]; intros acc; [reflexivity|].
  cbn [reduce]; rewrite substitute_literal.
  destruct (substituteLiteral acc kv); try reflexivity.
  cbn [bind]; apply IH.
Qed.


(** ** What can be raised *)

Lemma Encode_throws (s : jsstring) (e : exn) :
  Encode s = Throw e -> e = URIError.
Proof.
  destruct e; [reflexivity|].
  revert s; induction s as [|c|c d s IHs IHd] using jsstring_ind2; intros H.
  - discriminate.
  - cbn [Encode bind] in H.
    repeat match type of H with
           | (if ?b then _ else _) = _ => destruct b
           end; discriminate.
  - change (Encode (c :: d :: s)) with
      (if uriUnreserved c then r <- Encode (d :: s) ;; Normal (c :: r)
       else if isTrailSurrogate c then Throw URIError
       else if isLeadSurrogate c then
         if isTrailSurrogate d then
           r <- Encode s ;; Normal (escapeCodePoint (surrogatePair c d) ++ r)
         else Throw URIError
       else r <- Encode (d :: s) ;; Normal (escapeCodePoint c ++ r)) in H.
    repeat match type of H with
           | (if ?b then _ else _) = _ => destruct b
           end; try discriminate.
    + destruct (Encode (d :: s)); try discriminate. exact (IHd H).
    + destruct (Encode s); try discriminate. exact (IHs H).
    + destruct (Encode (d :: s)); try discriminate. exact (IHd H).
Qed.

Lemma Encode_modelled (s : jsstring) : Encode s <> Beyond.
Proof.
  induction s as [|c|c d s IHs IHd] using jsstring_ind2; intros H.
  - discriminate.
  - cbn [Encode bind] in H.
    repeat match type of H with
           | (if ?b then _ else _) = _ => destruct b
           end; discriminate.
  - change (Encode (c :: d :: s)) with
      (if uriUnreserved c then r <- Encode (d :: s) ;; Normal (c :: r)
       else if isTrailSurrogate c then Throw URIError
       else if isLeadSurrogate c then
         if isTrailSurrogate d then
           r <- Encode s ;; Normal (escapeCodePoint (surrogatePair c d) ++ r)
         else Throw URIError
       else r <- Encode (d :: s) ;; Normal (escapeCodePoint c ++ r)) in H.
    repeat match type of H with
           | (if ?b then _ else _) = _ => destruct b
           end; try discriminate.
    + destruct (Encode (d :: s)); try discriminate. exact (IHd eq_refl).
    + destruct (Encode s); try discriminate. exact (IHs eq_refl).
    + destruct (Encode (d :: s)); try discriminate. exact (IHd eq_refl).
Qed.




(** ** The built-ins on examples *)

Example encodeURIComponent_text :
  encodeURIComponent (VStr (lit "a b/c?d=$&{e}")) = Normal (lit "a%20b%2Fc%3Fd%3D%24%26%7Be%7D").
Proof. reflexivity. Qed.

(** U+00E9, U+20AC and the pair D83D DE00 (U+1F600). *)
Example encodeURIComponent_utf8 :
  encodeURIComponent (VStr [233; 8364; 55357; 56832])
  = Normal (lit "%C3%A9%E2%82%AC%F0%9F%98%80").
Proof. reflexivity. Qed.

Example encodeURIComponent_lone_surrogate :
  encodeURIComponent (VStr [97; 56832]) = Throw URIError.
Proof. reflexivity. Qed.

Example encodeURIComponent_number :
  encodeURIComponent (VInt (-42)) = Normal (lit "-42").
Proof. reflexivity. Qed.

Example replace_first_only :
  replace (lit "a{x}b{x}") (lit "{x}") (lit "1") = lit "a1b{x}".
Proof. reflexivity. Qed.

Example replace_dollar_patterns :
  replace (lit "a{x}b") (lit "{x}") (lit "[$&|$$|$`|$'|$1]") = lit "a[{x}|$|a|b|$1]b".
Proof. reflexivity. Qed.

Example escapeSlashes_pets :
  escapeSlashes (lit "/pets/{id}") = lit "\/pets\/{id}".
Proof. reflexivity. Qed.

Example RegExp_unfilled_placeholder :
  (re <- new_RegExp (lit "^\/pets\/{id}$") ;;
   Normal (RegExp_test re (lit "/pets/{id}"), RegExp_test re (lit "/pets/42")))
  = Normal (true, false).
Proof. reflexivity. Qed.

Example RegExp_unanchored_search :
  (re <- new_RegExp (lit "p.ts") ;;
   Normal (RegExp_test re (lit "/pets/42"), RegExp_test re (lit "/p")))
  = Normal (true, false).
Proof. reflexivity. Qed.

Example RegExp_rejected :
  new_RegExp (lit "^{2}$") = Throw SyntaxError
  /\ new_RegExp (lit "a)") = Throw SyntaxError
  /\ new_RegExp (lit "^*") = Throw SyntaxError
  /\ new_RegExp (lit "a\") = Throw SyntaxError.
Proof. repeat split. Qed.

Example RegExp_beyond :
  new_RegExp (lit "(a|b)") = Beyond /\ new_RegExp (lit "a{2}") = Beyond.
Proof. split; reflexivity. Qed.

Example MockApi_pet_by_id :
  matcherSource localhost (petById (VInt 42))
  = Normal (lit "^http://localhost:3000\/pets\/42$").
Proof. reflexivity. Qed.

Example MockApi_unset_base :
  matcherSource unsetEnv petTemplate = Normal (lit "^undefined\/pets\/{id}$").
Proof. reflexivity. Qed.

(** * The claims *)

(** ** C1: what the handler hands to route.fulfill *)

(** C1, as stated, fails: the status is passed on only when it is a number,
    and the options carry more than body and status.  For a descriptor whose
    status is the response key ["default"], the call has no status, and its
    [path] option is set. *)
Lemma fulfill_not_body_and_status_only :
  exists o,
    fulfillHandler petsDefault someRequest = [Fulfill o]
    /\ option_map VInt (opt_status o) <> status petsDefault
    /\ opt_path o <> None.
Proof.
  eexists; split; [reflexivity|]; split; discriminate.
Qed.

(** C1 (amended): on every request the handler makes exactly one call,
    [route.fulfill], whose [json] option is the descriptor's JSON body as it
    is (an array stays the same array) and whose [status] option is the
    descriptor's status when that is a number and [undefined] otherwise.
    When registration completes, this handler is the one of the first route
    of the page, so it answers every request the matcher accepts. *)
Theorem MockApi_fulfills (env : ProcessEnv) (page : Page) (d : MockApiArg) :
  (forall req, exists o,
      fulfillHandler d req = [Fulfill o]
      /\ opt_json o = json d
      /\ opt_status o = numberOrUndefined (status d)
      /\ (forall items, json d = Some (JArr items) -> opt_json o = Some (JArr items))
      /\ (forall n, status d = Some (VInt n) -> opt_status o = Some n))
  /\ (forall page',
        MockApi env page d = Normal page' ->
        exists re,
          page' = mkRouteEntry re (fulfillHandler d) :: page
          /\ forall req,
               RegExp_test re (req_url req) = true ->
               page_intercept page' req = Some (fulfillHandler d req)).
Proof.
  split.
  - intros req; eexists; split; [reflexivity|].
    cbn [opt_json opt_status]; repeat split.
    + intros items ->; reflexivity.
    + intros n ->; reflexivity.
  - intros page' H; apply MockApi_inv in H as (re & _ & ->).
    exists re; split; [reflexivity|].
    intros req Hm; apply page_intercept_first; exact Hm.
Qed.

Lemma MockApi_fulfills_witness :
  exists page' re,
    MockApi localhost [] petsList = Normal page'
    /\ page' = mkRouteEntry re (fulfillHandler petsList) :: []
    /\ RegExp_test re (req_url someRequest) = true
    /\ page_intercept page' someRequest = Some (fulfillHandler petsList someRequest)
    /\ exists o,
         fulfillHandler petsList someRequest = [Fulfill o]
         /\ opt_json o = json petsList
         /\ opt_status o = None.
Proof.
  destruct (proj2 (MockApi_fulfills localhost [] petsList) _ eq_refl)
    as (re & Hpage & Hreq).
  eexists; exists re.
  split; [reflexivity|]; split; [exact Hpage|].
  injection Hpage as <-.
  split; [reflexivity|]; split; [apply Hreq; reflexivity|].
  destruct (proj1 (MockApi_fulfills localhost [] petsList) someRequest)
    as (o & Ho & Hj & Hs & _).
  exists o; split; [exact Ho|]; split; [exact Hj | exact Hs].
Defined.

(** ** C5: no status given *)

(** C5: for a descriptor without [status], the handler answers every
    request with a [route.fulfill] whose [status] option is [undefined]: no
    status is passed on and the host's default applies.  It is the handler
    of the route MockApi registers. *)
Theorem MockApi_omits_status (d : MockApiArg) :
  status d = None ->
  (forall req, exists o,
      fulfillHandler d req = [Fulfill o] /\ opt_status o = None)
  /\ (forall env page page',
        MockApi env page d = Normal page' ->
        exists entry,
          page' = entry :: page /\ handler entry = fulfillHandler d).
Proof.
  intros Hs; split.
  - intros req; eexists; split; [reflexivity|].
    cbn [opt_status]; rewrite Hs; reflexivity.
  - intros env page page' H; apply MockApi_inv in H as (re & _ & ->).
    eexists; split; reflexivity.
Qed.

Lemma MockApi_omits_status_witness :
  status petsList = None
  /\ (forall req, exists o,
         fulfillHandler petsList req = [Fulfill o] /\ opt_status o = None)
  /\ (forall env page page',
        MockApi env page petsList = Normal page' ->
        exists entry,
          page' = entry :: page /\ handler entry = fulfillHandler petsList).
Proof.
  split; [reflexivity|].
  exact (MockApi_omits_status petsList eq_refl).
Defined.

(** ** C9: the method field *)

(** C9: two descriptors that differ at most in [method] make MockApi do the
    same: same completion, same matcher, same handler.  The handler does
    not look at the request, so every request the matcher accepts, whatever
    its HTTP method, is fulfilled with the same options. *)
Theorem MockApi_ignores_method (env : ProcessEnv) (page : Page) (d1 d2 : MockApiArg) :
  path d1 = path d2 ->
  status d1 = status d2 ->
  json d1 = json d2 ->
  query d1 = query d2 ->
  pathParam d1 = pathParam d2 ->
  MockApi env page d1 = MockApi env page d2
  /\ forall page' re url m1 m2,
       MockApi env page d2 = Normal page' ->
       matcherOf env d1 = Normal re ->
       RegExp_test re url = true ->
       page_intercept page' (mkRequest url m1) =
       page_intercept page' (mkRequest url m2)
       /\ page_intercept page' (mkRequest url m1) =
          Some (fulfillHandler d1 (mkRequest url m1)).
Proof.
  destruct d1 as [p1 s1 m1 j1 q1 pp1], d2 as [p2 s2 m2 j2 q2 pp2]; cbn.
  intros -> -> -> -> ->.
  split; [reflexivity|].
  intros page' re url n1 n2 H Hre Hm.
  apply MockApi_inv in H as (re' & Hre' & ->).
  assert (re' = re) as ->.
  { unfold matcherOf, matcherSource, pathString in *; cbn in *.
    rewrite Hre in Hre'; injection Hre' as <-; reflexivity. }
  rewrite !page_intercept_first by exact Hm; split; reflexivity.
Qed.

Lemma MockApi_ignores_method_witness :
  MockApi localhost [] petsList = MockApi localhost [] petsListPost
  /\ forall page' re url m1 m2,
       MockApi localhost [] petsListPost = Normal page' ->
       matcherOf localhost petsList = Normal re ->
       RegExp_test re url = true ->
       page_intercept page' (mkRequest url m1) =
       page_intercept page' (mkRequest url m2)
       /\ page_intercept page' (mkRequest url m1) =
          Some (fulfillHandler petsList (mkRequest url m1)).
Proof.
  apply (MockApi_ignores_method localhost [] petsList petsListPost); reflexivity.
Defined.

(** ** C4: a path without placeholder and without query *)



(** ** C8: escape first or substitute first *)

(** C8, as stated, fails: for the path [/a/{x/y}] and the mapping
    [{"x/y": 1}] the code, which escapes first, finds no token [{x/y}] in
    [\/a\/{x\/y}] and leaves it; the order of the specification gives
    [\/a\/1]. *)
Lemma escape_first_differs :
  pathString slashKey = Normal (lit "\/a\/{x\/y}")
  /\ specPathString slashKey = Normal (lit "\/a\/1")
  /\ pathString slashKey <> specPathString slashKey.
Proof. repeat split; discriminate. Qed.

(** C8 (amended): for every path and every path-parameter mapping none of
    whose keys contains a forward slash, escaping first and substituting
    afterwards (the code) gives the same completion as substituting first
    and escaping afterwards (the specification): the same text, or the same
    [URIError]. *)
Theorem pathString_orders_agree (d : MockApiArg) :
  (forall k v, In (k, v) (orEmpty (pathParam d)) -> ~ In c_slash k) ->
  pathString d = specPathString d.
Proof.
  intros Hk; unfold pathString, specPathString, Object_entries.
  apply reduce_substitute_escape; exact Hk.
Qed.

Lemma pathString_orders_agree_witness :
  (forall k v, In (k, v) (orEmpty (pathParam (petById (VStr (lit "a b"))))) ->
               ~ In c_slash k)
  /\ pathString (petById (VStr (lit "a b"))) = specPathString (petById (VStr (lit "a b")))
  /\ specPathString (petById (VStr (lit "a b"))) = Normal (lit "\/pets\/a%20b").
Proof.
  assert (Hk : forall k v,
             In (k, v) (orEmpty (pathParam (petById (VStr (lit "a b"))))) ->
             ~ In c_slash k).
  { intros k v [H|[]]; injection H as <- _.
    intros Hin; repeat (destruct Hin as [Hin|Hin]; [discriminate Hin|]); exact Hin. }
  split; [exact Hk|]; split; [|reflexivity].
  exact (pathString_orders_agree (petById (VStr (lit "a b"))) Hk).
Defined.

(** ** C2: substitution of the path parameters *)

(** C2, as stated, fails: the token is looked for after the slashes have
    been escaped.  For [/files/{dir/name}] with [{"dir/name": "readme"}] the
    token is not found: it is still there and the path is not
    [/files/readme]. *)
Lemma slash_key_not_substituted :
  pathString fileByName = Normal (escapeSlashes (path fileByName))
  /\ pathString fileByName <> Normal (escapeSlashes (lit "/files/readme")).
Proof. split; [reflexivity | discriminate]. Qed.

(** C2 (amended): for every path and every path-parameter mapping none of
    whose keys contains a forward slash, MockApi goes through the entries in
    mapping order and replaces the first occurrence of the literal token
    [{key}] in the path by the URL-encoded value, inserted as it is; the
    path string is the result with its slashes escaped.  So [/pets/{id}]
    with [{id: "42"}] gives the escaped [/pets/42], and with [{id: "a b"}]
    the escaped [/pets/a%20b].  A placeholder [{name}] whose name has no
    brace and no slash and is not a key stays in the result, provided no key
    contains a brace. *)
Theorem pathString_substitution (d : MockApiArg) :
  ((forall k v, In (k, v) (orEmpty (pathParam d)) -> ~ In c_slash k) ->
   pathString d
   = (r <- reduce substituteLiteral (orEmpty (pathParam d)) (path d) ;;
      Normal (escapeSlashes r)))
  /\ pathString (petById (VStr (lit "42"))) = Normal (escapeSlashes (lit "/pets/42"))
  /\ pathString (petById (VStr (lit "a b"))) = Normal (escapeSlashes (lit "/pets/a%20b"))
  /\ forall name a b r,
       path d = a ++ placeholder name ++ b ->
       ~ In c_lbrace name -> ~ In c_rbrace name -> ~ In c_slash name ->
       (forall k v, In (k, v) (orEmpty (pathParam d)) ->
                    k <> name /\ ~ In c_lbrace k /\ ~ In c_rbrace k) ->
       pathString d = Normal r ->
       exists a' b', r = a' ++ placeholder name ++ b'.
Proof.
  split.
  { intros Hk; unfold pathString, Object_entries.
    rewrite reduce_substitute_escape by exact Hk.
    rewrite reduce_substitute_literal; reflexivity. }
  split; [reflexivity|]; split; [reflexivity|].
  intros name a b r Hp Hl Hr Hs Hk H.
  unfold pathString, Object_entries in H.
  rewrite Hp, !escapeSlashes_app in H.
  rewrite (escapeSlashes_free (placeholder name)) in H
    by (apply placeholder_no_slash; exact Hs).
  exact (reduce_keeps _ name _ _ r Hl Hr Hk H).
Qed.

Lemma pathString_substitution_witness :
  pathString petToy
  = (r <- reduce substituteLiteral (orEmpty (pathParam petToy)) (path petToy) ;;
     Normal (escapeSlashes r))
  /\ pathString petToy = Normal (lit "\/pets\/42\/toys\/{toy}")
  /\ exists a' b', lit "\/pets\/42\/toys\/{toy}" = a' ++ placeholder (lit "toy") ++ b'.
Proof.
  split.
  { apply (proj1 (pathString_substitution petToy)).
    intros k v [H|[]]; injection H as <- _.
    intros H; repeat (destruct H as [H|H]; [discriminate H|]); exact H. }
  split; [reflexivity|].
  apply (proj2 (proj2 (proj2 (pathString_substitution petToy)))
           (lit "toy") (lit "/pets/{id}/toys/") []).
  - reflexivity.
  - intros H; repeat (destruct H as [H|H]; [discriminate H|]); exact H.
  - intros H; repeat (destruct H as [H|H]; [discriminate H|]); exact H.
  - intros H; repeat (destruct H as [H|H]; [discriminate H|]); exact H.
  - intros k v [H|[]]; injection H as <- _.
    split; [discriminate|].
    split; intros H; repeat (destruct H as [H|H]; [discriminate H|]); exact H.
  - reflexivity.
Defined.

(** ** C6: matchers of different paths *)

(** C6, as stated, fails: an unescaped character of the path keeps its
    meaning in the pattern.  With the base [http://localhost:3000], the
    matcher of the path [/report.csv] accepts the URL of the different path
    [/report-csv], because [.] matches any character. *)
Lemma dot_path_cross_matches :
  path reportDot <> path reportDash
  /\ (re <- matcherOf localhost reportDot ;;
      Normal (RegExp_test re (requestURL localhost (path reportDash))))
     = Normal true.
Proof. split; [discriminate | reflexivity]. Qed.

(** C6 (amended): take two descriptors with different paths, no query and
    no path parameters, a base URL made of literal characters and dots, and
    paths made of literal characters (no regular-expression syntax
    character other than the braces of a placeholder whose name does not
    start with a digit).  Then MockApi builds both matchers, each accepts
    the URL of its own path, and no URL is accepted by both: neither
    accepts the URL of the other's path. *)
Theorem literal_matchers_disjoint (env : ProcessEnv) (d1 d2 : MockApiArg) :
  pathParam d1 = None -> pathParam d2 = None ->
  query d1 = None -> query d2 = None ->
  plainBase (interpolate (BASE_URL env)) = true ->
  literalPath (path d1) = true -> literalPath (path d2) = true ->
  path d1 <> path d2 ->
  exists r1 r2,
    matcherOf env d1 = Normal r1
    /\ matcherOf env d2 = Normal r2
    /\ RegExp_test r1 (requestURL env (path d1)) = true
    /\ RegExp_test r2 (requestURL env (path d2)) = true
    /\ (forall url, RegExp_test r1 url = true -> RegExp_test r2 url = false)
    /\ RegExp_test r1 (requestURL env (path d2)) = false
    /\ RegExp_test r2 (requestURL env (path d1)) = false.
Proof.
  intros Hpp1 Hpp2 Hq1 Hq2 Hb Hl1 Hl2 Hne.
  set (base := interpolate (BASE_URL env)) in *.
  assert (Hbuild : forall d,
             pathParam d = None -> query d = None -> literalPath (path d) = true ->
             exists src,
               matcherOf env d =
               Normal (mkRegExp src
                         (AssertStart :: map baseTerm base
                            ++ map Char (path d) ++ [AssertEnd]))).
  { intros d Hpp Hq Hl.
    unfold matcherOf, matcherSource, pathString, new_RegExp.
    rewrite Hpp, Hq; cbn [orEmpty Object_entries reduce bind].
    fold base; eexists.
    change (parsePattern false (lit "^" ++ base ++ escapeSlashes (path d) ++ lit "$"))
      with (p <- parsePattern false (base ++ escapeSlashes (path d) ++ lit "$") ;;
            Normal (AssertStart :: p)).
    destruct (parse_base base (escapeSlashes (path d) ++ lit "$") false Hb) as [qf' ->].
    rewrite (parse_path (path d) qf' Hl); reflexivity. }
  assert (Htest : forall src p url,
             RegExp_test (mkRegExp src (AssertStart :: map baseTerm base
                                          ++ map Char p ++ [AssertEnd])) url = true ->
             exists u, url = u ++ p /\ List.length u = List.length base).
  { intros src p url H.
    rewrite RegExp_test_single in H by apply literal_program_no_bar.
    cbn [program] in H.
    rewrite matchFrom_anchored in H; cbn [matchHere andb] in H.
    apply matchHere_base in H as (u & s' & b' & -> & Hlen & H).
    apply matchHere_literal in H as ->.
    exists u; split; [reflexivity | exact Hlen]. }
  assert (Hself : forall src p,
             RegExp_test (mkRegExp src (AssertStart :: map baseTerm base
                                          ++ map Char p ++ [AssertEnd]))
                         (requestURL env p) = true).
  { intros src p; rewrite RegExp_test_single by apply literal_program_no_bar.
    unfold requestURL; cbn [program]; fold base.
    rewrite matchFrom_anchored; cbn [matchHere andb].
    apply matchHere_base_self. }
  assert (Hdisj : forall src1 src2 p1 p2 url,
             p1 <> p2 ->
             RegExp_test (mkRegExp src1 (AssertStart :: map baseTerm base
                                           ++ map Char p1 ++ [AssertEnd])) url = true ->
             RegExp_test (mkRegExp src2 (AssertStart :: map baseTerm base
                                           ++ map Char p2 ++ [AssertEnd])) url = false).
  { intros src1 src2 p1 p2 url Hp H1.
    destruct (RegExp_test (mkRegExp src2 _) url) eqn:H2; [|reflexivity].
    exfalso; apply Hp.
    apply Htest in H1 as (u1 & -> & Hlen1).
    apply Htest in H2 as (u2 & E & Hlen2).
    assert (Hskip : skipn (List.length base) (u1 ++ p1)
                    = skipn (List.length base) (u2 ++ p2)) by (rewrite E; reflexivity).
    rewrite <- Hlen1 in Hskip at 1; rewrite <- Hlen2 in Hskip.
    rewrite !skipn_length_app in Hskip; exact Hskip. }
  destruct (Hbuild d1 Hpp1 Hq1 Hl1) as [src1 E1].
  destruct (Hbuild d2 Hpp2 Hq2 Hl2) as [src2 E2].
  eexists; eexists.
  split; [exact E1|]; split; [exact E2|].
  split; [apply Hself|]; split; [apply Hself|].
  split; [intros url; apply Hdisj; exact Hne|].
  split.
  - apply (Hdisj src2 src1 (path d2) (path d1)); [congruence | apply Hself].
  - apply (Hdisj src1 src2 (path d1) (path d2)); [exact Hne | apply Hself].
Qed.

Lemma literal_matchers_disjoint_witness :
  exists r1 r2,
    matcherOf localhost reportDash = Normal r1
    /\ matcherOf localhost petTemplate = Normal r2
    /\ RegExp_test r1 (requestURL localhost (path reportDash)) = true
    /\ RegExp_test r2 (requestURL localhost (path petTemplate)) = true
    /\ (forall url, RegExp_test r1 url = true -> RegExp_test r2 url = false)
    /\ RegExp_test r1 (requestURL localhost (path petTemplate)) = false
    /\ RegExp_test r2 (requestURL localhost (path reportDash)) = false.
Proof.
  apply (literal_matchers_disjoint localhost reportDash petTemplate);
    try reflexivity; discriminate.
Defined.

(** * Further properties of MockApi and mkQParams *)

(** ** Literal text in a pattern *)

Lemma literalText_plainBase (t : jsstring) :
  literalText t = true -> plainBase t = true.
Proof.
  unfold literalText, plainBase; rewrite !forallb_forall.
  intros H c Hin; rewrite (H c Hin); apply orb_true_r.
Qed.

Lemma literalText_baseTerm (t : jsstring) :
  literalText t = true -> map baseTerm t = map Char t.
Proof.
  induction t as [|c t IH]; intros H; [reflexivity|].
  cbn [literalText forallb] in H; apply andb_true_iff in H as [Hc Ht].
  cbn [map]; rewrite (IH Ht); f_equal.
  unfold baseTerm; destruct (N.eqb_spec c c_dot) as [->|_]; [discriminate Hc | reflexivity].
Qed.

Lemma literalText_app (a b : jsstring) :
  literalText (a ++ b) = literalText a && literalText b.
Proof. apply forallb_app. Qed.

Lemma parse_text (t rest : jsstring) (qf : bool) :
  literalText t = true ->
  exists qf',
    parsePattern qf (t ++ rest) =
    (q <- parsePattern qf' rest ;; Normal (map Char t ++ q)).
Proof.
  intros H.
  destruct (parse_base t rest qf (literalText_plainBase t H)) as [qf' E].
  exists qf'; rewrite E, (literalText_baseTerm t H); reflexivity.
Qed.

Lemma parse_end (qf : bool) : parsePattern qf (lit "$") = Normal [AssertEnd].
Proof. reflexivity. Qed.

Lemma bracedQuantifier_before (p rest : jsstring) :
  startsWithDigit p = false -> startsWithDigit rest = false ->
  bracedQuantifier (escapeSlashes p ++ rest) = false.
Proof.
  intros Hp Hr; destruct p as [|c p].
  - destruct rest as [|x rest]; [reflexivity|].
    cbn [startsWithDigit] in Hr; cbn [escapeSlashes replaceAll1 flat_map app bracedQuantifier].
    rewrite Hr; reflexivity.
  - cbn [startsWithDigit] in Hp.
    destruct (N.eqb_spec c c_slash) as [->|Hc]; [reflexivity|].
    rewrite escapeSlashes_other by exact Hc.
    cbn [app bracedQuantifier]; rewrite Hp; reflexivity.
Qed.

(** The escaped literal path in front of any text that does not begin with
    a digit. *)
Lemma parse_path_rest (p rest : jsstring) (qf : bool) :
  literalPath p = true ->
  startsWithDigit rest = false ->
  exists qf',
    parsePattern qf (escapeSlashes p ++ rest) =
    (q <- parsePattern qf' rest ;; Normal (map Char p ++ q)).
Proof.
  intros Hp Hr; revert qf; induction p as [|c p IH]; intros qf.
  - exists qf; cbn [escapeSlashes replaceAll1 flat_map app map].
    destruct (parsePattern qf rest); reflexivity.
  - cbn [literalPath] in Hp; apply andb_true_iff in Hp as [Hc Hp].
    destruct (IH Hp true) as [qf' E]; exists qf'.
    assert (Hstep : forall x : code_unit,
               (q <- (q0 <- parsePattern qf' rest ;; Normal (map Char p ++ q0)) ;;
                Normal (Char x :: q))
               = (q <- parsePattern qf' rest ;; Normal (map Char (x :: p) ++ q)))
      by (intros x; destruct (parsePattern qf' rest); reflexivity).
    destruct (N.eqb_spec c c_slash) as [->|Hs].
    + rewrite escapeSlashes_slash.
      change (parsePattern qf ((c_backslash :: c_slash :: escapeSlashes p) ++ rest))
        with (q <- parsePattern true (escapeSlashes p ++ rest) ;;
              Normal (Char c_slash :: q)).
      rewrite E; apply Hstep.
    + rewrite escapeSlashes_other by exact Hs.
      cbn [app].
      destruct (N.eqb_spec c c_lbrace) as [->|Hl].
      * apply negb_true_iff in Hc.
        change (parsePattern qf (c_lbrace :: escapeSlashes p ++ rest))
          with (if bracedQuantifier (escapeSlashes p ++ rest)
                then if qf then Beyond else Throw SyntaxError
                else q <- parsePattern true (escapeSlashes p ++ rest) ;;
                     Normal (Char c_lbrace :: q)).
        rewrite (bracedQuantifier_before p rest Hc Hr), E; apply Hstep.
      * destruct (N.eqb_spec c c_rbrace) as [->|Hrb].
        -- change (parsePattern qf (c_rbrace :: escapeSlashes p ++ rest))
             with (q <- parsePattern true (escapeSlashes p ++ rest) ;;
                   Normal (Char c_rbrace :: q)).
           rewrite E; apply Hstep.
        -- cbn [orb] in Hc; apply negb_true_iff in Hc.
           unfold isSyntaxCharacter in Hc; split_orb Hc.
           cbn [parsePattern].
           repeat match goal with H : (c =? _) = false |- _ => rewrite H; clear H end.
           cbn [orb]; rewrite E; apply Hstep.
Qed.


(** ** Anchored matchers of literal text *)

Lemma compile_anchored (base body t : jsstring) :
  plainBase base = true ->
  (forall qf, parsePattern qf (body ++ lit "$") = Normal (map Char t ++ [AssertEnd])) ->
  new_RegExp (lit "^" ++ base ++ body ++ lit "$") =
  Normal (mkRegExp (lit "^" ++ base ++ body ++ lit "$")
            (AssertStart :: map baseTerm base ++ map Char t ++ [AssertEnd])).
Proof.
  intros Hb Hbody; unfold new_RegExp.
  change (parsePattern false (lit "^" ++ base ++ body ++ lit "$"))
    with (p <- parsePattern false (base ++ body ++ lit "$") ;;
          Normal (AssertStart :: p)).
  destruct (parse_base base (body ++ lit "$") false Hb) as [qf' ->].
  rewrite Hbody; reflexivity.
Qed.

Lemma matchHere_base_exact (base t s : jsstring) (b : bool) :
  matchHere (map baseTerm base ++ map Char t ++ [AssertEnd]) b s = true
  <-> exists u, baseAccepts base u = true /\ s = u ++ t.
Proof.
  revert b s; induction base as [|c base IH]; intros b s.
  - cbn [map app]; rewrite matchHere_literal; split.
    + intros ->; exists []; split; reflexivity.
    + intros (u & Hu & ->); destruct u; [reflexivity | discriminate Hu].
  - cbn [map app]; unfold baseTerm at 1; split.
    + intros H.
      assert (Hs : exists x s1,
                 s = x :: s1
                 /\ (if c =? c_dot then negb (isLineTerminator x) else x =? c) = true
                 /\ matchHere (map baseTerm base ++ map Char t ++ [AssertEnd]) false s1
                    = true).
      { destruct (c =? c_dot); cbn [matchHere] in H;
          (destruct s as [|x s1]; [discriminate|]);
          apply andb_true_iff in H as [Hx H]; eauto. }
      destruct Hs as (x & s1 & -> & Hx & H1).
      apply IH in H1 as (u & Hu & ->).
      exists (x :: u); split; [|reflexivity].
      cbn [baseAccepts]; rewrite Hx, Hu; reflexivity.
    + intros (u & Hu & ->).
      destruct u as [|x u]; [discriminate Hu|].
      cbn [baseAccepts] in Hu; apply andb_true_iff in Hu as [Hx Hu].
      assert (H1 : matchHere (map baseTerm base ++ map Char t ++ [AssertEnd]) false
                     (u ++ t) = true) by (apply IH; eauto).
      destruct (c =? c_dot); cbn [app matchHere]; rewrite Hx, H1; reflexivity.
Qed.

Lemma anchored_test (src base t url : jsstring) :
  RegExp_test
    (mkRegExp src (AssertStart :: map baseTerm base ++ map Char t ++ [AssertEnd])) url
  = true
  <-> exists u, baseAccepts base u = true /\ url = u ++ t.
Proof.
  rewrite RegExp_test_single by apply literal_program_no_bar.
  cbn [program].
  rewrite matchFrom_anchored; cbn [matchHere andb].
  apply matchHere_base_exact.
Qed.

Lemma baseAccepts_length (b u : jsstring) :
  baseAccepts b u = true -> List.length u = List.length b.
Proof.
  revert u; induction b as [|c b IH]; intros [|x u] H; try discriminate; [reflexivity|].
  cbn [baseAccepts] in H; apply andb_true_iff in H as [_ H].
  cbn [List.length]; f_equal; apply IH; exact H.
Qed.

Lemma baseAccepts_literal (b u : jsstring) :
  literalText b = true -> baseAccepts b u = true -> u = b.
Proof.
  revert u; induction b as [|c b IH]; intros [|x u] Hb H; try discriminate; [reflexivity|].
  cbn [literalText forallb] in Hb; apply andb_true_iff in Hb as [Hc Hb].
  cbn [baseAccepts] in H; apply andb_true_iff in H as [Hx H].
  destruct (N.eqb_spec c c_dot) as [->|_]; [discriminate Hc|].
  apply N.eqb_eq in Hx; subst x; f_equal; apply IH; assumption.
Qed.

Lemma baseAccepts_self (b : jsstring) :
  plainBase b = true -> baseAccepts b b = true.
Proof.
  induction b as [|c b IH]; intros Hb; [reflexivity|].
  cbn [plainBase forallb] in Hb; apply andb_true_iff in Hb as [_ Hb].
  cbn [baseAccepts]; rewrite (IH Hb), andb_true_r.
  destruct (N.eqb_spec c c_dot) as [->|_]; [reflexivity | apply N.eqb_refl].
Qed.

Lemma app_same_length_inj (u1 u2 t1 t2 : jsstring) :
  List.length u1 = List.length u2 -> u1 ++ t1 = u2 ++ t2 -> u1 = u2 /\ t1 = t2.
Proof.
  revert u2; induction u1 as [|x u1 IH]; intros [|y u2] Hl H; try discriminate.
  - split; [reflexivity | exact H].
  - injection Hl as Hl; injection H as -> H.
    destruct (IH u2 Hl H) as [-> ->]; split; reflexivity.
Qed.

Lemma matcherSource_no_params (env : ProcessEnv) (d : MockApiArg) :
  pathParam d = None ->
  matcherSource env d =
  Normal (lit "^" ++ interpolate (BASE_URL env)
          ++ (escapeSlashes (path d)
              ++ match query d with
                 | None => []
                 | Some q => lit "\?" ++ mkQParams q
                 end)
          ++ lit "$").
Proof.
  intros Hpp; unfold matcherSource, pathString; rewrite Hpp.
  cbn [orEmpty Object_entries reduce bind].
  destruct (query d); rewrite <- ?app_assoc; [|rewrite app_nil_l]; reflexivity.
Qed.

Lemma parse_path_query (p qs : jsstring) (qf : bool) :
  literalPath p = true ->
  literalText qs = true ->
  parsePattern qf ((escapeSlashes p ++ lit "\?" ++ qs) ++ lit "$")
  = Normal (map Char (p ++ lit "?" ++ qs) ++ [AssertEnd]).
Proof.
  intros Hp Hq; rewrite <- !app_assoc.
  destruct (parse_path_rest p (lit "\?" ++ qs ++ lit "$") qf Hp eq_refl) as [qf1 ->].
  change (parsePattern qf1 (lit "\?" ++ qs ++ lit "$"))
    with (q <- parsePattern true (qs ++ lit "$") ;; Normal (Char c_question :: q)).
  destruct (parse_text qs (lit "$") true Hq) as [qf2 ->].
  rewrite parse_end; cbn [bind].
  rewrite !map_app, <- !app_assoc; reflexivity.
Qed.

(** ** Which URLs a matcher accepts *)

Lemma accepts_literal_descriptor (env : ProcessEnv) (d : MockApiArg) :
  pathParam d = None ->
  plainBase (interpolate (BASE_URL env)) = true ->
  literalPath (path d) = true ->
  (forall q, query d = Some q -> literalText (mkQParams q) = true) ->
  exists re,
    matcherOf env d = Normal re
    /\ forall url,
         RegExp_test re url = true <->
         exists u, baseAccepts (interpolate (BASE_URL env)) u = true
                   /\ url = u ++ path d ++ queryString (query d).
Proof.
  intros Hpp Hb Hp Hq.
  unfold matcherOf; rewrite (matcherSource_no_params env d Hpp); cbn [bind].
  destruct (query d) as [q|] eqn:Eq.
  - rewrite (compile_anchored _ _ (path d ++ lit "?" ++ mkQParams q) Hb).
    + eexists; split; [reflexivity|].
      intros url; apply anchored_test.
    + intros qf; apply parse_path_query; [exact Hp | apply Hq; reflexivity].
  - rewrite app_nil_r.
    rewrite (compile_anchored _ _ (path d) Hb)
      by (intros qf; apply parse_path; exact Hp).
    eexists; split; [reflexivity|].
    intros url; cbn [queryString]; rewrite app_nil_r; apply anchored_test.
Qed.

(** ** C3: the query suffix *)

(** C3, as stated, fails: the final [$] of the text is not always an
    anchor.  For the path [/pets\] without query the text ends in [\$], a
    literal dollar sign, and the matcher accepts a URL that goes on with a
    query string. *)
Lemma backslash_path_not_anchored :
  query petsBackslash = None
  /\ matcherSource localhost petsBackslash
     = Normal (lit "^http://localhost:3000\/pets\$")
  /\ (re <- matcherOf localhost petsBackslash ;;
      Normal (RegExp_test re (lit "http://localhost:3000/pets$?page=2")))
     = Normal true.
Proof. repeat split. Qed.

(** C3 (amended): the text handed to [new RegExp] is [^], the base URL, the
    substituted escaped path, and then: with no query mapping, [$] right
    after the path; with a query mapping, a literal [\?], the [key=value]
    pairs joined by [&] in the order of the mapping, and [$].  For
    [{a: 1, b: 2}] the suffix is [\?a=1&b=2$].  When there are no path
    parameters, the base URL is made of literal characters and dots, and
    the path and the query text are literal, the matcher is anchored as the
    text reads: without query it accepts the base followed by the path and
    nothing more (no query string); with a query it accepts the base, the
    path, [?] and the pairs in mapping order, and nothing more. *)
Theorem matcher_query_suffix :
  (forall env d,
     matcherSource env d =
     (ps <- pathString d ;;
      Normal (lit "^" ++ interpolate (BASE_URL env) ++ ps
              ++ specQuerySuffix (query d))))
  /\ specQuerySuffix (Some [(lit "a", VInt 1); (lit "b", VInt 2)]) = lit "\?a=1&b=2$"
  /\ specQuerySuffix (Some [(lit "b", VInt 2); (lit "a", VInt 1)]) = lit "\?b=2&a=1$"
  /\ specQuerySuffix None = lit "$"
  /\ matcherSource localhost petsQuery
     = Normal (lit "^http://localhost:3000\/pets\?a=1&b=2$")
  /\ (forall env d,
        pathParam d = None ->
        plainBase (interpolate (BASE_URL env)) = true ->
        literalPath (path d) = true ->
        (forall q, query d = Some q -> literalText (mkQParams q) = true) ->
        exists re,
          matcherOf env d = Normal re
          /\ forall url,
               RegExp_test re url = true <->
               exists u, baseAccepts (interpolate (BASE_URL env)) u = true
                         /\ url = u ++ path d
                                    ++ match query d with
                                       | None => []
                                       | Some q => lit "?" ++ specQueryPairs q
                                       end).
Proof.
  split; [|split; [|split; [|split; [|split]]]]; try reflexivity.
  - intros env d; unfold matcherSource, specQuerySuffix.
    destruct (pathString d) as [ps| |]; try reflexivity.
    destruct (query d) as [q|]; [|reflexivity].
    cbn [bind]; rewrite mkQParams_pairs; reflexivity.
  - intros env d Hpp Hb Hp Hq.
    destruct (accepts_literal_descriptor env d Hpp Hb Hp Hq) as (re & Hre & Hacc).
    exists re; split; [exact Hre|].
    intros url; rewrite Hacc; unfold queryString.
    destruct (query d) as [q|]; [rewrite mkQParams_pairs|]; reflexivity.
Qed.

Lemma matcher_query_suffix_witness :
  exists re,
    matcherOf localhost petsQuery = Normal re
    /\ forall url,
         RegExp_test re url = true <->
         exists u, baseAccepts (lit "http://localhost:3000") u = true
                   /\ url = u ++ lit "/pets" ++ lit "?a=1&b=2".
Proof.
  apply (proj2 (proj2 (proj2 (proj2 (proj2 matcher_query_suffix))))
           localhost petsQuery); try reflexivity.
  intros q H; injection H as <-; reflexivity.
Defined.

(** ** C10: an empty query mapping *)

(** C10, as stated, fails: characters of the path keep their meaning in the
    pattern.  For the path [/pets|] with an empty query mapping the text
    [^http://localhost:3000\/pets|\?$] has two alternatives, and the first
    accepts a URL that does not end in [?]. *)
Lemma empty_query_bar_path :
  query petsBarEmptyQuery = Some []
  /\ matcherSource localhost petsBarEmptyQuery
     = Normal (lit "^http://localhost:3000\/pets|\?$")
  /\ (re <- matcherOf localhost petsBarEmptyQuery ;;
      Normal (RegExp_test re (lit "http://localhost:3000/pets/42")))
     = Normal true.
Proof. repeat split. Qed.

(** C10 (amended): with [query] given but empty, the pattern text ends in
    [\?$]: it is the text of the no-query case with [\?] put before the
    final [$], a different text.  When there are no path parameters, the
    base URL is made of literal characters and dots and the path is
    literal, the matcher accepts exactly the base followed by the path and a
    final [?], so only URLs that end in [?]. *)
Theorem matcher_empty_query (env : ProcessEnv) (d : MockApiArg) :
  query d = Some [] ->
  matcherSource env d =
    (ps <- pathString d ;;
     Normal (lit "^" ++ interpolate (BASE_URL env) ++ ps ++ lit "\?$"))
  /\ (forall d0 src src0,
        path d0 = path d -> pathParam d0 = pathParam d -> query d0 = None ->
        matcherSource env d = Normal src ->
        matcherSource env d0 = Normal src0 ->
        src <> src0
        /\ exists body, src0 = body ++ lit "$" /\ src = body ++ lit "\?$")
  /\ (pathParam d = None ->
      plainBase (interpolate (BASE_URL env)) = true ->
      literalPath (path d) = true ->
      exists re,
        matcherOf env d = Normal re
        /\ (forall url,
              RegExp_test re url = true <->
              exists u, baseAccepts (interpolate (BASE_URL env)) u = true
                        /\ url = u ++ path d ++ lit "?")
        /\ (forall url, RegExp_test re url = true -> exists w, url = w ++ lit "?")).
Proof.
  intros Hq.
  assert (Hsrc : matcherSource env d =
                 (ps <- pathString d ;;
                  Normal (lit "^" ++ interpolate (BASE_URL env) ++ ps ++ lit "\?$"))).
  { unfold matcherSource; rewrite Hq; reflexivity. }
  split; [exact Hsrc|]; split.
  - intros d0 src src0 Hp Hpp Hq0 H H0.
    rewrite Hsrc in H.
    unfold matcherSource in H0; rewrite Hq0 in H0.
    unfold pathString in *; rewrite Hp, Hpp in H0.
    destruct (reduce substitute _ _) as [ps| |]; try discriminate.
    injection H as <-; injection H0 as <-.
    split.
    + intros E; injection E as E.
      do 2 apply app_inv_head in E; discriminate E.
    + exists (lit "^" ++ interpolate (BASE_URL env) ++ ps).
      rewrite <- !app_assoc; split; reflexivity.
  - intros Hpp Hb Hp.
    destruct (accepts_literal_descriptor env d Hpp Hb Hp) as (re & Hre & Hacc).
    { intros q E; rewrite Hq in E; injection E as <-; reflexivity. }
    rewrite Hq in Hacc.
    assert (Hexact : forall url,
               RegExp_test re url = true <->
               exists u, baseAccepts (interpolate (BASE_URL env)) u = true
                         /\ url = u ++ path d ++ lit "?")
      by (intros url; rewrite Hacc; reflexivity).
    exists re; split; [exact Hre|]; split; [exact Hexact|].
    intros url Ht; apply Hexact in Ht as (u & _ & ->).
    exists (u ++ path d); rewrite <- app_assoc; reflexivity.
Qed.

Lemma matcher_empty_query_witness :
  exists re,
    query petsEmptyQuery = Some []
    /\ matcherOf localhost petsEmptyQuery = Normal re
    /\ RegExp_test re (lit "http://localhost:3000/pets?") = true
    /\ RegExp_test re (lit "http://localhost:3000/pets") = false
    /\ forall url, RegExp_test re url = true -> exists w, url = w ++ lit "?".
Proof.
  destruct (proj2 (proj2 (matcher_empty_query localhost petsEmptyQuery eq_refl))
              eq_refl eq_refl eq_refl) as (re & Hre & _ & Hend).
  exists re; split; [reflexivity|]; split; [exact Hre|].
  injection Hre as <-.
  split; [reflexivity|]; split; [reflexivity | exact Hend].
Defined.

(** The matcher of a descriptor without path parameters, whose base URL,
    path and query text are literal (dots allowed in the base), accepts
    exactly the URLs made of a text the base stands for, the path, and the
    query string of the mapping: nothing before, nothing after. *)
Theorem matcher_accepts_exactly (env : ProcessEnv) (d : MockApiArg) :
  pathParam d = None ->
  plainBase (interpolate (BASE_URL env)) = true ->
  literalPath (path d) = true ->
  (forall q, query d = Some q -> literalText (mkQParams q) = true) ->
  exists re,
    matcherOf env d = Normal re
    /\ forall url,
         RegExp_test re url = true <->
         exists u, baseAccepts (interpolate (BASE_URL env)) u = true
                   /\ url = u ++ path d ++ queryString (query d).
Proof.
  intros Hpp Hb Hp Hq.
  unfold matcherOf; rewrite (matcherSource_no_params env d Hpp); cbn [bind].
  destruct (query d) as [q|] eqn:Eq.
  - rewrite (compile_anchored _ _ (path d ++ lit "?" ++ mkQParams q) Hb).
    + eexists; split; [reflexivity|].
      intros url; apply anchored_test.
    + intros qf; apply parse_path_query; [exact Hp | apply Hq; reflexivity].
  - rewrite app_nil_r.
    rewrite (compile_anchored _ _ (path d) Hb)
      by (intros qf; apply parse_path; exact Hp).
    eexists; split; [reflexivity|].
    intros url; cbn [queryString]; rewrite app_nil_r; apply anchored_test.
Qed.

Lemma matcher_accepts_exactly_witness :
  exists re,
    matcherOf localhost petsQuery = Normal re
    /\ forall url,
         RegExp_test re url = true <->
         exists u, baseAccepts (lit "http://localhost:3000") u = true
                   /\ url = u ++ lit "/pets" ++ lit "?a=1&b=2".
Proof.
  apply (matcher_accepts_exactly localhost petsQuery); try reflexivity.
  intros q H; injection H as <-; reflexivity.
Defined.

(** A mock registered without query intercepts the URL of its path and no
    longer URL: a request that carries a query string, or anything else
    after the path, is not intercepted. *)
Theorem no_query_matcher_rejects_longer (env : ProcessEnv) (d : MockApiArg) :
  pathParam d = None -> query d = None ->
  plainBase (interpolate (BASE_URL env)) = true ->
  literalPath (path d) = true ->
  exists re,
    matcherOf env d = Normal re
    /\ RegExp_test re (requestURL env (path d)) = true
    /\ forall more, more <> [] ->
                    RegExp_test re (requestURL env (path d) ++ more) = false.
Proof.
  intros Hpp Hq Hb Hp.
  destruct (accepts_literal_descriptor env d Hpp Hb Hp) as (re & Hre & Hacc).
  { intros q E; rewrite Hq in E; discriminate. }
  rewrite Hq in Hacc; cbn [queryString] in Hacc.
  exists re; split; [exact Hre|]; split.
  - apply Hacc; exists (interpolate (BASE_URL env)); split.
    + apply baseAccepts_self; exact Hb.
    + rewrite app_nil_r; reflexivity.
  - intros more Hmore.
    destruct (RegExp_test re (requestURL env (path d) ++ more)) eqn:E; [|reflexivity].
    exfalso; apply Hmore.
    apply Hacc in E as (u & Hu & E).
    unfold requestURL in E; rewrite app_nil_r, <- app_assoc in E.
    apply app_same_length_inj in E as [_ E].
    + apply (app_inv_head (path d)); rewrite app_nil_r; exact E.
    + symmetry; apply baseAccepts_length; exact Hu.
Qed.

Lemma no_query_matcher_rejects_longer_witness :
  exists re,
    matcherOf localhost petsList = Normal re
    /\ RegExp_test re (requestURL localhost (path petsList)) = true
    /\ RegExp_test re (requestURL localhost (path petsList) ++ lit "?page=2") = false.
Proof.
  destruct (no_query_matcher_rejects_longer localhost petsList
              eq_refl eq_refl eq_refl eq_refl) as (re & Hre & Hself & Hmore).
  exists re; split; [exact Hre|]; split; [exact Hself|].
  apply Hmore; discriminate.
Defined.

(** The matcher depends on the order of the query mapping.  For a
    descriptor without path parameters, with a base URL of literal
    characters and dots, a literal path and a mapping whose query text is
    literal, the matcher accepts the URL that carries the query string of
    another mapping exactly when the two mappings give the same query
    text. *)
Theorem query_order_matters (env : ProcessEnv) (d : MockApiArg) (q1 q2 : object) :
  pathParam d = None -> query d = Some q1 ->
  plainBase (interpolate (BASE_URL env)) = true ->
  literalPath (path d) = true ->
  literalText (mkQParams q1) = true ->
  exists re,
    matcherOf env d = Normal re
    /\ (RegExp_test re (requestURL env (path d) ++ queryString (Some q2)) = true
        <-> mkQParams q1 = mkQParams q2).
Proof.
  intros Hpp Hq Hb Hp Hl.
  destruct (accepts_literal_descriptor env d Hpp Hb Hp) as (re & Hre & Hacc).
  { intros q E; rewrite Hq in E; injection E as <-; exact Hl. }
  rewrite Hq in Hacc.
  exists re; split; [exact Hre|]; rewrite Hacc; split.
  - intros (u & Hu & E).
    unfold requestURL in E; rewrite <- !app_assoc in E.
    apply app_same_length_inj in E as [_ E];
      [|symmetry; apply baseAccepts_length; exact Hu].
    apply app_inv_head in E; cbn [queryString] in E.
    apply app_inv_head in E; symmetry; exact E.
  - intros E; exists (interpolate (BASE_URL env)); split.
    + apply baseAccepts_self; exact Hb.
    + unfold requestURL, queryString; rewrite E, <- app_assoc; reflexivity.
Qed.

Lemma query_order_matters_witness :
  exists re,
    matcherOf localhost petsQuery = Normal re
    /\ RegExp_test re (lit "http://localhost:3000/pets?a=1&b=2") = true
    /\ RegExp_test re (lit "http://localhost:3000/pets?b=2&a=1") = false.
Proof.
  destruct (query_order_matters localhost petsQuery
              [(lit "a", VInt 1); (lit "b", VInt 2)]
              [(lit "b", VInt 2); (lit "a", VInt 1)]
              eq_refl eq_refl eq_refl eq_refl eq_refl) as (re & Hre & Hiff).
  exists re; split; [exact Hre|]; split.
  - injection Hre as <-; reflexivity.
  - destruct (RegExp_test re (lit "http://localhost:3000/pets?b=2&a=1")) eqn:E;
      [|reflexivity].
    apply Hiff in E; discriminate E.
Defined.



(** Query values are put in the pattern as they are.  When the query text
    has an unmatched closing parenthesis after literal text, [new RegExp]
    rejects the pattern and registration raises [SyntaxError]. *)
Theorem unescaped_query_can_throw (env : ProcessEnv) (page : Page) (d : MockApiArg)
        (q : object) (t1 t2 : jsstring) :
  pathParam d = None -> query d = Some q ->
  plainBase (interpolate (BASE_URL env)) = true ->
  literalPath (path d) = true ->
  mkQParams q = t1 ++ c_rparen :: t2 ->
  literalText t1 = true ->
  MockApi env page d = Throw SyntaxError.
Proof.
  intros Hpp Hq Hb Hp Hqs Ht.
  unfold MockApi, matcherOf; rewrite (matcherSource_no_params env d Hpp), Hq, Hqs.
  cbn [bind]; unfold new_RegExp.
  change (parsePattern false
            (lit "^" ++ interpolate (BASE_URL env)
               ++ (escapeSlashes (path d) ++ lit "\?" ++ t1 ++ c_rparen :: t2)
               ++ lit "$"))
    with (p <- parsePattern false
                 (interpolate (BASE_URL env)
                    ++ (escapeSlashes (path d) ++ lit "\?" ++ t1 ++ c_rparen :: t2)
                    ++ lit "$") ;;
          Normal (AssertStart :: p)).
  destruct (parse_base (interpolate (BASE_URL env))
              ((escapeSlashes (path d) ++ lit "\?" ++ t1 ++ c_rparen :: t2) ++ lit "$")
              false Hb) as [qf0 ->].
  rewrite <- !app_assoc.
  destruct (parse_path_rest (path d) (lit "\?" ++ t1 ++ (c_rparen :: t2) ++ lit "$")
              qf0 Hp eq_refl) as [qf1 ->].
  change (parsePattern qf1 (lit "\?" ++ t1 ++ (c_rparen :: t2) ++ lit "$"))
    with (r <- parsePattern true (t1 ++ (c_rparen :: t2) ++ lit "$") ;;
          Normal (Char c_question :: r)).
  destruct (parse_text t1 ((c_rparen :: t2) ++ lit "$") true Ht) as [qf2 ->].
  reflexivity.
Qed.

Lemma unescaped_query_can_throw_witness :
  MockApi localhost []
    (mkMockApiArg (lit "/pets") None None None (Some [(lit "q", VStr (lit "a)"))]) None)
  = Throw SyntaxError.
Proof.
  apply (unescaped_query_can_throw localhost [] _ [(lit "q", VStr (lit "a)"))]
           (lit "q=a") []); reflexivity.
Defined.

(** ** What encodeURIComponent puts in the path *)

Lemma Encode_unreserved (s : jsstring) :
  forallb uriUnreserved s = true -> Encode s = Normal s.
Proof.
  induction s as [|c s IH]; intros H; [reflexivity|].
  cbn [forallb] in H; apply andb_true_iff in H as [Hc Hs].
  cbn [Encode]; rewrite Hc, (IH Hs); reflexivity.
Qed.

Lemma escapeCodePoint_shape (cp : N) :
  exists x y rest, escapeCodePoint cp = c_percent :: x :: y :: rest.
Proof.
  unfold escapeCodePoint, utf8.
  destruct (cp <? 128); [|destruct (cp <? 2048); [|destruct (cp <? 65536)]];
    cbn [flat_map percentEncode app]; eauto.
Qed.

Lemma Encode_length (s r : jsstring) :
  Encode s = Normal r -> (List.length s <= List.length r)%nat.
Proof.
  revert r; induction s as [|c|c d s IHs IHd] using jsstring_ind2; intros r H.
  - injection H as <-; apply le_n.
  - cbn [Encode bind] in H.
    destruct (uriUnreserved c); cbn [bind] in H.
    + injection H as <-; apply le_n.
    + destruct (isTrailSurrogate c); [discriminate|].
      destruct (isLeadSurrogate c); [discriminate|].
      injection H as <-.
      destruct (escapeCodePoint_shape c) as (x & y & rest & ->).
      cbn [app List.length]; lia.
  - change (Encode (c :: d :: s)) with
      (if uriUnreserved c then r <- Encode (d :: s) ;; Normal (c :: r)
       else if isTrailSurrogate c then Throw URIError
       else if isLeadSurrogate c then
         if isTrailSurrogate d then
           r <- Encode s ;; Normal (escapeCodePoint (surrogatePair c d) ++ r)
         else Throw URIError
       else r <- Encode (d :: s) ;; Normal (escapeCodePoint c ++ r)) in H.
    destruct (uriUnreserved c).
    + destruct (Encode (d :: s)) as [r'| |]; try discriminate.
      cbn [bind] in H; injection H as <-.
      specialize (IHd r' eq_refl); cbn [List.length] in *; lia.
    + destruct (isTrailSurrogate c); [discriminate|].
      destruct (isLeadSurrogate c).
      * destruct (isTrailSurrogate d); [|discriminate].
        destruct (Encode s) as [r'| |]; try discriminate.
        cbn [bind] in H; injection H as <-.
        destruct (escapeCodePoint_shape (surrogatePair c d)) as (x & y & rest & ->).
        specialize (IHs r' eq_refl).
        cbn [app List.length]; rewrite length_app; lia.
      * destruct (Encode (d :: s)) as [r'| |]; try discriminate.
        cbn [bind] in H; injection H as <-.
        destruct (escapeCodePoint_shape c) as (x & y & rest & ->).
        specialize (IHd r' eq_refl).
        cbn [app List.length] in *; rewrite length_app; lia.
Qed.

Lemma Encode_cons (c : code_unit) (s r : jsstring) :
  Encode (c :: s) = Normal r ->
  (uriUnreserved c = true /\ exists r', Encode s = Normal r' /\ r = c :: r')
  \/ (uriUnreserved c = false
      /\ exists x y rest, r = c_percent :: x :: y :: rest
                          /\ (List.length s <= S (List.length rest))%nat).
Proof.
  intros H.
  destruct (uriUnreserved c) eqn:Eu.
  - left; split; [reflexivity|].
    cbn [Encode] in H; rewrite Eu in H.
    destruct (Encode s) as [r'| |]; try discriminate.
    injection H as <-; eauto.
  - right; split; [reflexivity|].
    cbn [Encode] in H; rewrite Eu in H.
    destruct (isTrailSurrogate c); [discriminate|].
    destruct (isLeadSurrogate c).
    + destruct s as [|d s]; [discriminate|].
      destruct (isTrailSurrogate d); [|discriminate].
      destruct (Encode s) as [r'| |] eqn:Er; try discriminate.
      cbn [bind] in H; injection H as <-.
      assert (Hlen := Encode_length _ _ Er).
      destruct (escapeCodePoint_shape (surrogatePair c d)) as (x & y & rest & ->).
      exists x, y, (rest ++ r'); split; [reflexivity|].
      rewrite length_app; simpl; lia.
    + destruct (Encode s) as [r'| |] eqn:Er; try discriminate.
      cbn [bind] in H; injection H as <-.
      assert (Hlen := Encode_length _ _ Er).
      destruct (escapeCodePoint_shape c) as (x & y & rest & ->).
      exists x, y, (rest ++ r'); split; [reflexivity|].
      rewrite length_app; lia.
Qed.


(** A path-parameter value goes into the path unchanged exactly when all its
    units are unreserved (letters, digits and [- _ . ! ~ * ' ( )]); any
    other unit, the percent sign included, is rewritten. *)
Theorem encoded_verbatim_iff (s : jsstring) :
  encodeURIComponent (VStr s) = Normal s <-> forallb uriUnreserved s = true.
Proof.
  unfold encodeURIComponent; cbn [ToString]; split; [|apply Encode_unreserved].
  induction s as [|c s IH]; intros H; [reflexivity|].
  destruct (Encode_cons _ _ _ H) as [(Hc & r' & Hr & E) | (_ & x & y & rest & E & Hlen)].
  - injection E as <-.
    cbn [forallb]; rewrite Hc, (IH Hr); reflexivity.
  - injection E as _ E; subst s; simpl in Hlen; lia.
Qed.

(** Whatever the value, the text that replaces a placeholder consists of
    unreserved units and percent signs: it brings no slash, no backslash, no
    brace, no dollar sign, no question mark, no ampersand and no equals sign
    into the path. *)
Theorem encoded_value_alphabet (v : jsval) (e : jsstring) :
  encodeURIComponent v = Normal e ->
  Forall (fun c => uriUnreserved c = true \/ c = c_percent) e
  /\ ~ In c_slash e /\ ~ In c_backslash e
  /\ ~ In c_lbrace e /\ ~ In c_rbrace e /\ ~ In c_dollar e
  /\ ~ In c_question e /\ ~ In c_amp e /\ ~ In c_equals e.
Proof.
  intros H; split.
  - apply Encode_units in H.
    eapply Forall_impl; [|exact H].
    intros c Hc; unfold encodedUnit in Hc.
    apply orb_true_iff in Hc as [Hc|Hc]; [left; exact Hc | right; apply N.eqb_eq; exact Hc].
  - repeat split; intros Hin;
      match type of Hin with
      | In ?x e => exact (encoded_free x v e eq_refl H Hin)
      end.
Qed.

Lemma encoded_value_alphabet_witness :
  encodeURIComponent (VStr (lit "a/b {c}")) = Normal (lit "a%2Fb%20%7Bc%7D")
  /\ ~ In c_slash (lit "a%2Fb%20%7Bc%7D").
Proof.
  split; [reflexivity|].
  exact (proj1 (proj2 (encoded_value_alphabet (VStr (lit "a/b {c}")) _ eq_refl))).
Defined.

Lemma encoded_verbatim_iff_witness :
  forallb uriUnreserved (lit "pet-42") = true
  /\ encodeURIComponent (VStr (lit "pet-42")) = Normal (lit "pet-42").
Proof.
  split; [reflexivity|].
  apply (proj2 (encoded_verbatim_iff (lit "pet-42"))); reflexivity.
Defined.

Lemma Encode_noSurrogate (s : jsstring) :
  noSurrogate s = true -> exists e, Encode s = Normal e.
Proof.
  induction s as [|c s IH]; intros H; [exists []; reflexivity|].
  cbn [noSurrogate forallb] in H; apply andb_true_iff in H as [Hc Hs].
  apply negb_true_iff, orb_false_elim in Hc as [Hl Ht].
  destruct (IH Hs) as [e He].
  cbn [Encode]; rewrite Hl, Ht, He.
  destruct (uriUnreserved c); eexists; reflexivity.
Qed.

(** Values without surrogate code units never make the substitution fail:
    if the text of every path-parameter value is free of surrogates, the
    path string is built. *)
Theorem pathString_total_without_surrogates (d : MockApiArg) :
  (forall k v, In (k, v) (orEmpty (pathParam d)) -> noSurrogate (ToString v) = true) ->
  exists ps, pathString d = Normal ps.
Proof.
  unfold pathString, Object_entries.
  generalize (escapeSlashes (path d)).
  induction (orEmpty (pathParam d)) as [|[k v] rest IH]; intros acc H.
  - exists acc; reflexivity.
  - cbn [reduce]; unfold substitute at 1, encodeURIComponent.
    destruct (Encode_noSurrogate (ToString v)) as [e ->];
      [apply (H k v); left; reflexivity|].
    cbn [bind]; apply IH.
    intros k' v' Hin; apply (H k' v'); right; exact Hin.
Qed.

Lemma pathString_total_without_surrogates_witness :
  exists ps, pathString (petById (VStr (lit "a b/c"))) = Normal ps.
Proof.
  apply (pathString_total_without_surrogates (petById (VStr (lit "a b/c")))).
  intros k v [H|[]]; injection H as _ <-; reflexivity.
Defined.





(** ** One placeholder, filled *)


Lemma replaceFirst_here (tok rep rest : jsstring) :
  tok <> [] -> replaceFirst tok rep (tok ++ rest) = rep ++ rest.
Proof.
  intros Ht; destruct tok as [|c tok]; [contradiction|].
  cbn [app]; rewrite replaceFirst_cons.
  change (c :: tok ++ rest) with ((c :: tok) ++ rest).
  rewrite startsWith_app, skipn_length_app; reflexivity.
Qed.











(** ** C7: exceptions at registration *)







(** ** The query text *)

Lemma join_app (sep : jsstring) (xs ys : list jsstring) :
  xs <> [] -> ys <> [] ->
  join sep (xs ++ ys) = join sep xs ++ sep ++ join sep ys.
Proof.
  intros Hx Hy; induction xs as [|x xs IH]; [contradiction|].
  destruct xs as [|x' xs].
  - destruct ys as [|y ys]; [contradiction | reflexivity].
  - change (join sep ((x :: x' :: xs) ++ ys))
      with (x ++ sep ++ join sep ((x' :: xs) ++ ys)).
    rewrite IH by discriminate.
    cbn [join]; rewrite <- !app_assoc; reflexivity.
Qed.

(** The query text of a mapping made of two non-empty parts is the text of
    the first part, an ampersand, and the text of the second part; the text
    of the empty mapping is empty. *)
Theorem mkQParams_app (q1 q2 : object) :
  q1 <> [] -> q2 <> [] ->
  mkQParams (q1 ++ q2) = mkQParams q1 ++ lit "&" ++ mkQParams q2.
Proof.
  intros H1 H2; unfold mkQParams, Object_entries.
  rewrite map_app; apply join_app.
  - destruct q1; [contradiction | discriminate].
  - destruct q2; [contradiction | discriminate].
Qed.

Lemma mkQParams_app_witness :
  mkQParams ([(lit "a", VInt 1)] ++ [(lit "b", VBool true); (lit "c", VNull)])
  = lit "a=1" ++ lit "&" ++ lit "b=true&c=null".
Proof.
  rewrite mkQParams_app by discriminate; reflexivity.
Defined.



(** ** Distinct paths, distinct patterns *)

Lemma escapeSlashes_head (s t : jsstring) :
  escapeSlashes s <> c_slash :: t.
Proof.
  destruct s as [|c s]; [discriminate|].
  destruct (N.eqb_spec c c_slash) as [->|Hc].
  - rewrite escapeSlashes_slash; discriminate.
  - rewrite escapeSlashes_other by exact Hc; congruence.
Qed.

Lemma escapeSlashes_inj (s1 s2 : jsstring) :
  escapeSlashes s1 = escapeSlashes s2 -> s1 = s2.
Proof.
  revert s2; induction s1 as [|c1 s1 IH]; intros [|c2 s2] H.
  - reflexivity.
  - destruct (N.eqb_spec c2 c_slash) as [->|Hc];
      [rewrite escapeSlashes_slash in H | rewrite escapeSlashes_other in H by exact Hc];
      discriminate H.
  - destruct (N.eqb_spec c1 c_slash) as [->|Hc];
      [rewrite escapeSlashes_slash in H | rewrite escapeSlashes_other in H by exact Hc];
      discriminate H.
  - destruct (N.eqb_spec c1 c_slash) as [->|H1], (N.eqb_spec c2 c_slash) as [->|H2];
      rewrite ?escapeSlashes_slash in H;
      rewrite ?(escapeSlashes_other c1) in H by exact H1;
      rewrite ?(escapeSlashes_other c2) in H by exact H2.
    + injection H as H; f_equal; apply IH; exact H.
    + injection H as <- H; symmetry in H; destruct (escapeSlashes_head _ _ H).
    + injection H as -> H; destruct (escapeSlashes_head _ _ H).
    + injection H as -> H; f_equal; apply IH; exact H.
Qed.

(** Without path parameters and with the same query, the pattern text
    determines the path: descriptors with different paths are given
    different pattern texts. *)
Theorem pattern_text_determines_path (env : ProcessEnv) (d1 d2 : MockApiArg) :
  pathParam d1 = None -> pathParam d2 = None ->
  query d1 = query d2 ->
  matcherSource env d1 = matcherSource env d2 ->
  path d1 = path d2.
Proof.
  intros H1 H2 Hq H.
  rewrite (matcherSource_no_params env d1 H1), (matcherSource_no_params env d2 H2), Hq in H.
  injection H as H.
  apply app_inv_head, app_inv_tail, app_inv_tail in H.
  apply escapeSlashes_inj; exact H.
Qed.

Lemma pattern_text_determines_path_witness :
  matcherSource localhost petsList = matcherSource localhost petsListPost
  /\ path petsList = path petsListPost.
Proof.
  split; [reflexivity|].
  apply (pattern_text_determines_path localhost petsList petsListPost); reflexivity.
Defined.

(** ** Registrations, one after the other *)

(** Registration adds one route in front of the routing table and keeps the
    routes that were there: a request the new matcher does not accept is
    handled as it was before. *)
Theorem registration_keeps_routes (env : ProcessEnv) (page page' : Page)
        (d : MockApiArg) :
  MockApi env page d = Normal page' ->
  exists re,
    matcherOf env d = Normal re
    /\ page' = mkRouteEntry re (fulfillHandler d) :: page
    /\ forall req,
         RegExp_test re (req_url req) = false ->
         page_intercept page' req = page_intercept page req.
Proof.
  intros H; apply MockApi_inv in H as (re & Hre & ->).
  exists re; split; [exact Hre|]; split; [reflexivity|].
  intros req Hm; unfold page_intercept; cbn [find matcher]; rewrite Hm; reflexivity.
Qed.

Lemma registration_keeps_routes_witness :
  exists page',
    MockApi localhost [] (petById (VInt 42)) = Normal page'
    /\ page_intercept page' someRequest = page_intercept [] someRequest.
Proof.
  assert (H : exists page', MockApi localhost [] (petById (VInt 42)) = Normal page')
    by (eexists; reflexivity).
  destruct H as (page' & H).
  exists page'; split; [exact H|].
  destruct (registration_keeps_routes _ _ _ _ H) as (re & Hre & _ & Hkeep).
  apply Hkeep; injection Hre as <-; reflexivity.
Defined.

(** A later mock with the same path, query and path parameters takes the
    place of an earlier one, whatever their methods: every request is
    either answered by the later descriptor's handler or handled as it was
    before both registrations.  The earlier handler is never reached. *)
Theorem later_mock_shadows_earlier (env : ProcessEnv) (page page1 page2 : Page)
        (d1 d2 : MockApiArg) :
  path d1 = path d2 -> query d1 = query d2 -> pathParam d1 = pathParam d2 ->
  MockApi env page d1 = Normal page1 ->
  MockApi env page1 d2 = Normal page2 ->
  forall req,
    page_intercept page2 req = Some (fulfillHandler d2 req)
    \/ page_intercept page2 req = page_intercept page req.
Proof.
  intros Hp Hq Hpp H1 H2 req.
  apply MockApi_inv in H1 as (re1 & Hre1 & ->).
  apply MockApi_inv in H2 as (re2 & Hre2 & ->).
  assert (re1 = re2) as <-.
  { unfold matcherOf, matcherSource, pathString in *.
    rewrite Hp, Hq, Hpp in Hre1; rewrite Hre1 in Hre2.
    injection Hre2 as <-; reflexivity. }
  unfold page_intercept; cbn [find matcher handler].
  destruct (RegExp_test re1 (req_url req)); [left | right]; reflexivity.
Qed.

Lemma later_mock_shadows_earlier_witness :
  exists page2,
    mockingPets localhost [] = Normal page2
    /\ page_intercept page2 someRequest = Some (fulfillHandler petsCreate someRequest)
    /\ forall req,
         page_intercept page2 req = Some (fulfillHandler petsCreate req)
         \/ page_intercept page2 req = page_intercept [] req.
Proof.
  pose (page1 := match MockApi localhost [] petsList with
                 | Normal p => p
                 | _ => []
                 end).
  pose (page2 := match MockApi localhost page1 petsCreate with
                 | Normal p => p
                 | _ => []
                 end).
  exists page2; split; [reflexivity|]; split; [reflexivity|].
  apply (later_mock_shadows_earlier localhost [] page1 page2 petsList petsCreate);
    reflexivity.
Defined.

(** ** The order of the path parameters *)

Lemma braceFree_check (t : jsstring) :
  forallb (fun c => negb ((c =? c_lbrace) || (c =? c_rbrace))) t = true ->
  braceFree t.
Proof.
  rewrite forallb_forall; intros H; split; intros Hin;
    specialize (H _ Hin); discriminate H.
Qed.

Lemma escapeSlashes_in (c : code_unit) (t : jsstring) :
  c <> c_backslash -> c <> c_slash -> In c (escapeSlashes t) -> In c t.
Proof.
  intros Hb Hs Hin.
  destruct (in_split _ _ Hin) as (u & r & E).
  apply escapeSlashes_split in E as (u0 & r0 & -> & _); [|exact Hb | exact Hs].
  apply in_or_app; right; left; reflexivity.
Qed.

Lemma braceFree_escape (t : jsstring) :
  braceFree t -> braceFree (escapeSlashes t).
Proof.
  intros [Hl Hr]; split; intros Hin;
    apply escapeSlashes_in in Hin; try discriminate; auto.
Qed.

Lemma escapeSlashes_placeholder (name : jsstring) :
  escapeSlashes (placeholder name) = placeholder (escapeSlashes name).
Proof.
  rewrite !placeholder_unfold.
  rewrite escapeSlashes_other by discriminate.
  rewrite escapeSlashes_app; reflexivity.
Qed.

Lemma escapeSlashes_render (ps : list piece) :
  escapeSlashes (render ps) = render (map escapePiece ps).
Proof.
  induction ps as [|p ps IH]; [reflexivity|].
  cbn [render flat_map map]; fold (render ps); fold (render (map escapePiece ps)).
  rewrite escapeSlashes_app, IH; f_equal.
  destruct p as [t|name]; [reflexivity | apply escapeSlashes_placeholder].
Qed.

Lemma piecesBraceFree_escape (ps : list piece) :
  piecesBraceFree ps -> piecesBraceFree (map escapePiece ps).
Proof.
  intros H p Hin; apply in_map_iff in Hin as (p0 & <- & Hin0).
  specialize (H p0 Hin0); destruct p0; apply braceFree_escape; exact H.
Qed.

(** On a template with well-placed braces, replacing the token of [k] is
    filling the first placeholder named [k]. *)
Lemma render_fill (ps : list piece) (k e : jsstring) :
  piecesBraceFree ps -> braceFree k ->
  replaceFirst (placeholder k) e (render ps) = render (fillHole k e ps).
Proof.
  intros Hps [Hkl Hkr]; induction ps as [|p ps IH].
  - reflexivity.
  - assert (Hp := Hps p (or_introl eq_refl)).
    assert (IH' := IH (fun q Hq => Hps q (or_intror Hq))); clear IH.
    cbn [render flat_map]; fold (render ps).
    destruct p as [t|name]; cbn [renderPiece pieceContent fillHole] in *.
    + rewrite (placeholder_unfold k), replaceFirst_skip by exact (proj1 Hp).
      rewrite <- placeholder_unfold, IH'; reflexivity.
    + destruct (list_eq_dec N.eq_dec name k) as [->|Hne].
      * rewrite replaceFirst_here by (rewrite placeholder_unfold; discriminate).
        reflexivity.
      * cbn [render flat_map renderPiece]; fold (render (fillHole k e ps)).
        rewrite <- IH'.
        rewrite (placeholder_unfold name); cbn [app].
        rewrite replaceFirst_cons.
        replace (startsWith (placeholder k)
                   (c_lbrace :: (name ++ [c_rbrace]) ++ render ps)) with false.
        -- rewrite <- app_assoc; cbn [app].
           rewrite (placeholder_unfold k), replaceFirst_skip by exact (proj1 Hp).
           rewrite replaceFirst_cons; cbn [startsWith].
           change (c_lbrace =? c_rbrace) with false; cbn [andb].
           rewrite <- app_assoc; reflexivity.
        -- symmetry; apply not_true_is_false; intros E.
           rewrite placeholder_unfold in E; cbn [startsWith] in E.
           apply andb_true_iff in E as [_ E].
           rewrite <- app_assoc in E; cbn [app] in E.
           apply Hne; symmetry.
           exact (token_same k name (render ps) Hkr (proj2 Hp) E).
Qed.

Lemma fillHole_braceFree (ps : list piece) (k e : jsstring) :
  piecesBraceFree ps -> braceFree e -> piecesBraceFree (fillHole k e ps).
Proof.
  intros Hps He; induction ps as [|p ps IH]; [exact Hps|].
  assert (IH' := IH (fun q Hq => Hps q (or_intror Hq))); clear IH.
  assert (Hp := Hps p (or_introl eq_refl)).
  destruct p as [t|name]; cbn [fillHole].
  - intros q [<-|Hq]; [exact Hp | exact (IH' q Hq)].
  - destruct (list_eq_dec N.eq_dec name k).
    + intros q [<-|Hq]; [exact He | exact (Hps q (or_intror Hq))].
    + intros q [<-|Hq]; [exact Hp | exact (IH' q Hq)].
Qed.

Lemma fillHole_comm (ps : list piece) (k1 e1 k2 e2 : jsstring) :
  k1 <> k2 ->
  fillHole k1 e1 (fillHole k2 e2 ps) = fillHole k2 e2 (fillHole k1 e1 ps).
Proof.
  intros Hne; induction ps as [|p ps IH]; [reflexivity|].
  destruct p as [t|name]; cbn [fillHole]; [rewrite IH; reflexivity|].
  destruct (list_eq_dec N.eq_dec name k2) as [E2|N2],
           (list_eq_dec N.eq_dec name k1) as [E1|N1]; cbn [fillHole].
  - congruence.
  - destruct (list_eq_dec N.eq_dec name k2); [reflexivity | contradiction].
  - destruct (list_eq_dec N.eq_dec name k1); [reflexivity | contradiction].
  - destruct (list_eq_dec N.eq_dec name k1); [contradiction|].
    destruct (list_eq_dec N.eq_dec name k2); [contradiction|].
    rewrite IH; reflexivity.
Qed.

Lemma substitute_render (ps : list piece) (k : jsstring) (v : jsval) :
  piecesBraceFree ps -> braceFree k ->
  substitute (render ps) (k, v) =
  (e <- encodeURIComponent v ;; Normal (render (fillHole k e ps))).
Proof.
  intros Hps Hk; rewrite substitute_literal; unfold substituteLiteral.
  destruct (encodeURIComponent v); try reflexivity.
  cbn [bind]; rewrite render_fill by assumption; reflexivity.
Qed.

Lemma encoded_braceFree (v : jsval) (e : jsstring) :
  encodeURIComponent v = Normal e -> braceFree e.
Proof.
  intros H; split; intros Hin.
  - exact (encoded_free c_lbrace v e eq_refl H Hin).
  - exact (encoded_free c_rbrace v e eq_refl H Hin).
Qed.

Lemma reduce_permutation (l l' : list (jsstring * jsval)) :
  Permutation l l' ->
  forall ps,
    piecesBraceFree ps ->
    NoDup (map fst l) ->
    (forall k v, In (k, v) l -> braceFree k) ->
    reduce substitute l (render ps) = reduce substitute l' (render ps).
Proof.
  induction 1 as [|[k v] l l' Hperm IH|[k1 v1] [k2 v2] l|l l' l'' H1 IH1 H2 IH2];
    intros ps Hps Hnd Hk.
  - reflexivity.
  - cbn [reduce].
    rewrite substitute_render by (try assumption; apply (Hk k v); left; reflexivity).
    destruct (encodeURIComponent v) as [e| |] eqn:Ee; try reflexivity.
    cbn [bind]; apply IH.
    + apply fillHole_braceFree; [exact Hps | exact (encoded_braceFree v e Ee)].
    + cbn [map] in Hnd; inversion Hnd; assumption.
    + intros k' v' Hin; apply (Hk k' v'); right; exact Hin.
  - assert (Hk1 : braceFree k1) by (apply (Hk k1 v1); right; left; reflexivity).
    assert (Hk2 : braceFree k2) by (apply (Hk k2 v2); left; reflexivity).
    assert (Hne : k2 <> k1).
    { cbn [map fst] in Hnd; inversion Hnd as [|? ? Hnin _]; subst.
      intros ->; apply Hnin; left; reflexivity. }
    cbn [reduce].
    rewrite !substitute_render by assumption.
    destruct (encodeURIComponent v1) as [e1|x1|] eqn:E1,
             (encodeURIComponent v2) as [e2|x2|] eqn:E2; cbn [bind];
      try (exfalso; exact (Encode_modelled _ E1));
      try (exfalso; exact (Encode_modelled _ E2)).
    + rewrite !substitute_render
        by (try assumption; apply fillHole_braceFree; try assumption;
            eapply encoded_braceFree; eassumption).
      rewrite E1, E2; cbn [bind].
      rewrite (fillHole_comm ps k2 e2 k1 e1 Hne); reflexivity.
    + rewrite substitute_render
        by (try assumption; apply fillHole_braceFree; try assumption;
            eapply encoded_braceFree; eassumption).
      rewrite E2; reflexivity.
    + rewrite substitute_render
        by (try assumption; apply fillHole_braceFree; try assumption;
            eapply encoded_braceFree; eassumption).
      rewrite E1; reflexivity.
    + rewrite (Encode_throws _ _ E1), (Encode_throws _ _ E2); reflexivity.
  - rewrite (IH1 ps Hps Hnd Hk).
    apply IH2; [exact Hps | |].
    + apply (Permutation_NoDup (Permutation_map fst H1)); exact Hnd.
    + intros k v Hin; apply (Hk k v).
      apply (Permutation_in _ (Permutation_sym H1)); exact Hin.
Qed.

(** The order of the path parameters does not matter.  For a path whose
    braces only delimit placeholders (no brace inside a name or in the text
    between placeholders) and a mapping with distinct keys without braces,
    listing the entries in another order gives the same path string, or the
    same [URIError]. *)
Theorem pathString_order_independent (d d' : MockApiArg) (ps : list piece)
        (o o' : object) :
  path d = render ps -> path d' = path d ->
  piecesBraceFree ps ->
  pathParam d = Some o -> pathParam d' = Some o' ->
  Permutation o o' ->
  NoDup (map fst o) ->
  (forall k v, In (k, v) o -> braceFree k) ->
  pathString d = pathString d'.
Proof.
  intros Hp Hp' Hps Ho Ho' Hperm Hnd Hk.
  unfold pathString; rewrite Hp', Ho, Ho', Hp, escapeSlashes_render.
  cbn [orEmpty Object_entries].
  apply reduce_permutation; try assumption.
  apply piecesBraceFree_escape; exact Hps.
Qed.

Lemma pathString_order_independent_witness :
  pathString
    (mkMockApiArg (lit "/a/{x}/b/{y}") None None None None
                  (Some [(lit "x", VInt 1); (lit "y", VInt 2)]))
  = pathString
      (mkMockApiArg (lit "/a/{x}/b/{y}") None None None None
                    (Some [(lit "y", VInt 2); (lit "x", VInt 1)]))
  /\ pathString
       (mkMockApiArg (lit "/a/{x}/b/{y}") None None None None
                     (Some [(lit "y", VInt 2); (lit "x", VInt 1)]))
     = Normal (lit "\/a\/1\/b\/2").
Proof.
  split; [|reflexivity].
  apply (pathString_order_independent _ _
           [Text (lit "/a/"); Hole (lit "x"); Text (lit "/b/"); Hole (lit "y")]
           [(lit "x", VInt 1); (lit "y", VInt 2)]
           [(lit "y", VInt 2); (lit "x", VInt 1)]);
    try reflexivity.
  - intros p Hin.
    repeat (destruct Hin as [<-|Hin]; [apply braceFree_check; reflexivity|]).
    destruct Hin.
  - apply perm_swap.
  - repeat constructor; intros Hin;
      repeat (destruct Hin as [Hin|Hin]; [discriminate Hin|]); exact Hin.
  - intros k v Hin.
    repeat (destruct Hin as [Hin|Hin];
            [injection Hin as <- _; apply braceFree_check; reflexivity|]).
    destruct Hin.
Defined.

(** ** A parameter without placeholder *)

Lemma reduce_app {A B : Type} (f : B -> A -> completion B) (l1 l2 : list A) (acc : B) :
  reduce f (l1 ++ l2) acc = (acc' <- reduce f l1 acc ;; reduce f l2 acc').
Proof.
  revert acc; induction l1 as [|x l1 IH]; intros acc; [reflexivity|].
  cbn [app reduce]; destruct (f acc x); try reflexivity.
  cbn [bind]; apply IH.
Qed.

Lemma fillHole_absent (ps : list piece) (k e : jsstring) :
  (forall name, In (Hole name) ps -> name <> k) -> fillHole k e ps = ps.
Proof.
  induction ps as [|p ps IH]; intros H; [reflexivity|].
  assert (IH' := IH (fun n Hn => H n (or_intror Hn))).
  destruct p as [t|name]; cbn [fillHole]; [rewrite IH'; reflexivity|].
  destruct (list_eq_dec N.eq_dec name k) as [E|_].
  - destruct (H name (or_introl eq_refl) E).
  - rewrite IH'; reflexivity.
Qed.

Lemma fillHole_holes (ps : list piece) (k e name : jsstring) :
  In (Hole name) (fillHole k e ps) -> In (Hole name) ps.
Proof.
  induction ps as [|p ps IH]; [intros []|].
  destruct p as [t|n]; cbn [fillHole].
  - intros [H|H]; [discriminate H | right; exact (IH H)].
  - destruct (list_eq_dec N.eq_dec n k).
    + intros [H|H]; [discriminate H | right; exact H].
    + intros [H|H]; [left; exact H | right; exact (IH H)].
Qed.

Lemma escapeSlashes_keeps_slash (t : jsstring) :
  In c_slash t -> In c_slash (escapeSlashes t).
Proof.
  intros Hin; destruct (in_split _ _ Hin) as (u & r & ->).
  rewrite escapeSlashes_app, escapeSlashes_slash.
  apply in_or_app; right; right; left; reflexivity.
Qed.

Lemma reduce_render_inv (o : object) (k : jsstring) :
  (forall k1 v1, In (k1, v1) o -> braceFree k1) ->
  forall ps r,
    piecesBraceFree ps ->
    (forall name, In (Hole name) ps -> name <> k) ->
    reduce substitute o (render ps) = Normal r ->
    exists ps',
      r = render ps'
      /\ piecesBraceFree ps'
      /\ (forall name, In (Hole name) ps' -> name <> k).
Proof.
  induction o as [|[k1 v1] o IH]; intros Hk ps r Hps Hh H.
  - injection H as <-; exists ps; auto.
  - cbn [reduce] in H.
    rewrite substitute_render in H
      by (try assumption; apply (Hk k1 v1); left; reflexivity).
    destruct (encodeURIComponent v1) as [e1| |] eqn:E1; try discriminate.
    cbn [bind] in H.
    apply (IH (fun k' v' Hin => Hk k' v' (or_intror Hin)) (fillHole k1 e1 ps) r).
    + apply fillHole_braceFree; [exact Hps | exact (encoded_braceFree v1 e1 E1)].
    + intros name Hin; apply Hh; exact (fillHole_holes _ _ _ _ Hin).
    + exact H.
Qed.

(** A path parameter for which the path has no placeholder changes nothing,
    as long as its value can be encoded: the path string is the one built
    without that entry. *)
Theorem unused_parameter_ignored (d d' : MockApiArg) (ps : list piece)
        (o1 o2 : object) (k e : jsstring) (v : jsval) :
  path d = render ps -> path d' = path d ->
  piecesBraceFree ps ->
  (forall name, In (Hole name) ps -> name <> k) ->
  braceFree k -> ~ In c_slash k ->
  pathParam d = Some (o1 ++ (k, v) :: o2) ->
  pathParam d' = Some (o1 ++ o2) ->
  (forall k1 v1, In (k1, v1) o1 -> braceFree k1) ->
  encodeURIComponent v = Normal e ->
  pathString d = pathString d'.
Proof.
  intros Hp Hp' Hps Hh Hk Hs Ho Ho' Hk1 He.
  unfold pathString; rewrite Hp', Ho, Ho', Hp, escapeSlashes_render.
  cbn [orEmpty Object_entries]; rewrite !reduce_app.
  destruct (reduce substitute o1 (render (map escapePiece ps))) as [r| |] eqn:E;
    try reflexivity.
  cbn [bind reduce].
  destruct (reduce_render_inv o1 k Hk1 (map escapePiece ps) r) as (ps' & -> & Hps' & Hh').
  - apply piecesBraceFree_escape; exact Hps.
  - intros name Hin; apply in_map_iff in Hin as (p0 & E0 & Hin0).
    destruct p0 as [t|n]; [discriminate E0|].
    injection E0 as <-; intros E1.
    assert (Hn : ~ In c_slash n)
      by (intros Hin; apply Hs; rewrite <- E1; apply escapeSlashes_keeps_slash; exact Hin).
    rewrite (escapeSlashes_free n Hn) in E1.
    exact (Hh n Hin0 E1).
  - exact E.
  - rewrite substitute_render by assumption.
    rewrite He; cbn [bind].
    rewrite (fillHole_absent ps' k e Hh'); reflexivity.
Qed.

Lemma unused_parameter_ignored_witness :
  pathString
    (mkMockApiArg (lit "/pets/{id}") None None None None
                  (Some [(lit "id", VInt 42); (lit "owner", VStr (lit "a b"))]))
  = pathString (petById (VInt 42)).
Proof.
  apply (unused_parameter_ignored _ _
           [Text (lit "/pets/"); Hole (lit "id")]
           [(lit "id", VInt 42)] [] (lit "owner") (lit "a%20b") (VStr (lit "a b")));
    try reflexivity.
  - intros p Hin.
    repeat (destruct Hin as [<-|Hin]; [apply braceFree_check; reflexivity|]).
    destruct Hin.
  - intros name Hin.
    repeat (destruct Hin as [Hin|Hin]; [try discriminate Hin|]); [|destruct Hin].
    injection Hin as <-; discriminate.
  - apply braceFree_check; reflexivity.
  - intros Hin; repeat (destruct Hin as [Hin|Hin]; [discriminate Hin|]); exact Hin.
  - intros k1 v1 Hin.
    repeat (destruct Hin as [Hin|Hin];
            [injection Hin as <- _; apply braceFree_check; reflexivity|]).
    destruct Hin.
Defined.

(** ** Raw and encoded values in the URL *)


